(** * The follow/block workshop application ([assets/ddd_workshop.py])

    A shallow embedding of the command/event engine: value objects, the
    [Account] aggregate, the two in-memory repositories, the event bus and
    [Application.handle] with its handlers, its policy and its projector.

    Conventions of the embedding.
    - A Python [str] is a [string]; each character stands for one code
      point below 256.
    - A [dict] is a [gmap], a [set] a [gset], a [defaultdict(set)] a [gmap]
      to [gset] whose subscript inserts the empty set under a missing key.
    - Mutable state is passed explicitly; an exception is an [Outcome]. *)

From Stdlib Require Import Ascii.
From stdpp Require Import base gmap sets list strings sorting.

Local Open Scope string_scope.
Local Open Scope list_scope.

(* stdpp's solvers clear hypotheses that may be gone already. *)
Set Warnings "-clear-no-such-hyp".

(** ** Python's [re.match] on the two patterns of the value objects *)

(** The regular expressions without anchors, as sets of strings. *)
Inductive regex : Type :=
| re_none
| re_eps
| re_set (p : ascii → bool)
| re_seq (r s : regex)
| re_alt (r s : regex)
| re_star (r : regex)
| re_rep (r : regex) (lo hi : nat).

(** [r+] *)
Definition re_plus (r : regex) : regex := re_seq r (re_star r).

(** A literal character. *)
Definition re_chr (c : ascii) : regex := re_set (Ascii.eqb c).

Fixpoint nullable (r : regex) : bool :=
  match r with
  | re_none => false
  | re_eps => true
  | re_set _ => false
  | re_seq r s => nullable r && nullable s
  | re_alt r s => nullable r || nullable s
  | re_star _ => true
  | re_rep r lo hi => (lo <=? hi)%nat && ((lo =? 0)%nat || nullable r)
  end.

(** Brzozowski derivative: the strings [w] with [c :: w] in [r]. *)
Fixpoint deriv (c : ascii) (r : regex) : regex :=
  match r with
  | re_none => re_none
  | re_eps => re_none
  | re_set p => if p c then re_eps else re_none
  | re_seq r s =>
      if nullable r then re_alt (re_seq (deriv c r) s) (deriv c s)
      else re_seq (deriv c r) s
  | re_alt r s => re_alt (deriv c r) (deriv c s)
  | re_star r => re_seq (deriv c r) (re_star r)
  | re_rep r lo hi =>
      match hi with
      | O => re_none
      | S hi' =>
          if (lo <=? hi)%nat then re_seq (deriv c r) (re_rep r (pred lo) hi')
          else re_none
      end
  end.

(** The whole of [s] is in [r]. *)
Fixpoint matches (r : regex) (s : string) : bool :=
  match s with
  | EmptyString => nullable r
  | String c s' => matches (deriv c r) s'
  end.

Definition newline : ascii := ascii_of_nat 10.

(** [s] without its last character, when that is a newline. *)
Fixpoint strip_final_newline (s : string) : option string :=
  match s with
  | EmptyString => None
  | String c EmptyString => if Ascii.eqb c newline then Some EmptyString else None
  | String c s' => String c <$> strip_final_newline s'
  end.

(** [re.match("^" body "$", s) is not None]. Without [re.MULTILINE], [^]
    holds at position 0 only, where [re.match] starts, and [$] holds at the
    end of the string and just before a newline that is its last
    character. *)
Definition re_match_bol_eol (body : regex) (s : string) : bool :=
  matches body s ||
  match strip_final_newline s with
  | Some s' => matches body s'
  | None => false
  end.

(** [\s] on a [str] pattern, for code points below 256: TAB to CR, FS to
    US, the space, NEL and the no-break space. *)
Definition is_space (c : ascii) : bool :=
  let n := nat_of_ascii c in
  ((9 <=? n) && (n <=? 13) || (28 <=? n) && (n <=? 32) ||
   (n =? 133) || (n =? 160))%nat.

(** [[^@\s]] *)
Definition not_at_nor_space (c : ascii) : bool :=
  negb (Ascii.eqb c "@") && negb (is_space c).

(** [[a-zA-Z0-9_]] *)
Definition is_word_char (c : ascii) : bool :=
  let n := nat_of_ascii c in
  ((97 <=? n) && (n <=? 122) || (65 <=? n) && (n <=? 90) ||
   (48 <=? n) && (n <=? 57) || (n =? 95))%nat.

(** The body of [r"^[^@\s]+@[^@\s]+\.[^@\s]+$"]. *)
Definition email_pattern : regex :=
  re_seq (re_plus (re_set not_at_nor_space))
    (re_seq (re_chr "@")
       (re_seq (re_plus (re_set not_at_nor_space))
          (re_seq (re_chr ".") (re_plus (re_set not_at_nor_space))))).

(** The body of [r"^[a-zA-Z0-9_]{3,32}$"]. *)
Definition username_pattern : regex := re_rep (re_set is_word_char) 3 32.

(** *** What the two patterns accept, in words *)

(** Some split [u ++ v] of [s] satisfies [f]. *)
Fixpoint exists_split (f : string → string → bool) (s : string) : bool :=
  f "" s ||
  match s with
  | EmptyString => false
  | String c s' => exists_split (λ u v, f (String c u) v) s'
  end.

(** Every character of [s] satisfies [p]. *)
Fixpoint string_forallb (p : ascii → bool) (s : string) : bool :=
  match s with
  | EmptyString => true
  | String c s' => p c && string_forallb p s'
  end.

(** ... and there is at least one. *)
Definition nonempty_all (p : ascii → bool) (s : string) : bool :=
  match s with
  | EmptyString => false
  | String _ _ => string_forallb p s
  end.

(** Three to 32 characters, each in [[A-Za-z0-9_]]. *)
Definition username_shape (s : string) : bool :=
  (3 <=? String.length s)%nat && (String.length s <=? 32)%nat
  && string_forallb is_word_char s.

(** [local@domain.tld]: three non-empty runs of characters that are neither
    [@] nor whitespace, with [@] and [.] between them. *)
Definition email_shape (s : string) : Prop :=
  ∃ l d t,
    s = l +:+ "@" +:+ d +:+ "." +:+ t ∧
    nonempty_all not_at_nor_space l = true ∧
    nonempty_all not_at_nor_space d = true ∧
    nonempty_all not_at_nor_space t = true.

(** ** Exceptions *)

Inductive Exn : Type :=
| ValueError (msg : string)
| AssertionError
| AttributeError.

(** ** Value objects *)

Record AccountId : Type := mkAccountId { AccountId_value : string }.
Record Email : Type := mkEmail { Email_value : string }.
Record Username : Type := mkUsername { Username_value : string }.

#[global] Instance AccountId_eq_dec : EqDecision AccountId.
Proof. solve_decision. Defined.
#[global] Instance Email_eq_dec : EqDecision Email.
Proof. solve_decision. Defined.
#[global] Instance Username_eq_dec : EqDecision Username.
Proof. solve_decision. Defined.

#[global] Instance AccountId_countable : Countable AccountId :=
  inj_countable' AccountId_value mkAccountId
    (λ a, match a with mkAccountId _ => eq_refl end).

(** [AccountId.new()]: [rnd] is the string [uuid.uuid4()] yields. *)
Definition AccountId_new (rnd : string) : AccountId := mkAccountId rnd.

(** [Email(value)]: the dataclass constructor followed by
    [__post_init__]. *)
Definition Email_new (value : string) : Exn + Email :=
  if re_match_bol_eol email_pattern value then inr (mkEmail value)
  else inl (ValueError "Invalid email").

(** [Username(value)]. *)
Definition Username_new (value : string) : Exn + Username :=
  if re_match_bol_eol username_pattern value then inr (mkUsername value)
  else inl (ValueError "Invalid username").

(** ** Domain events and commands *)

Inductive Event : Type :=
| AccountRegistered (account_id : AccountId) (email : Email) (username : Username)
| AccountAlreadyExists (email : option Email) (username : option Username)
    (reason : string)
| AccountFollowed (follower_id followee_id : AccountId)
| FollowRejectedBlocked (follower_id followee_id : AccountId) (reason : string)
| AccountBlocked (blocker_id blocked_id : AccountId)
| FollowerRemoved (follower_id followee_id : AccountId) (reason : string).

(** [OtherCommand cls] is an instance of any further class [cls] deriving
    from the marker [Command], the marker itself included. *)
Inductive Command : Type :=
| RegisterAccount (email : Email) (username : Username)
| FollowAccount (follower_id followee_id : AccountId)
| BlockAccount (blocker_id blocked_id : AccountId)
| RemoveFollower (follower_id followee_id : AccountId)
| OtherCommand (cls : string).

(** [type(ev)] and [type(cmd)], the keys of the two dispatch tables. *)
Inductive EventType : Type :=
| TAccountRegistered | TAccountAlreadyExists | TAccountFollowed
| TFollowRejectedBlocked | TAccountBlocked | TFollowerRemoved.

Inductive CommandType : Type :=
| TRegisterAccount | TFollowAccount | TBlockAccount | TRemoveFollower
| TOther (cls : string).

#[global] Instance EventType_eq_dec : EqDecision EventType.
Proof. solve_decision. Defined.
#[global] Instance CommandType_eq_dec : EqDecision CommandType.
Proof. solve_decision. Defined.

Definition type_of_event (ev : Event) : EventType :=
  match ev with
  | AccountRegistered _ _ _ => TAccountRegistered
  | AccountAlreadyExists _ _ _ => TAccountAlreadyExists
  | AccountFollowed _ _ => TAccountFollowed
  | FollowRejectedBlocked _ _ _ => TFollowRejectedBlocked
  | AccountBlocked _ _ => TAccountBlocked
  | FollowerRemoved _ _ _ => TFollowerRemoved
  end.

Definition type_of_command (cmd : Command) : CommandType :=
  match cmd with
  | RegisterAccount _ _ => TRegisterAccount
  | FollowAccount _ _ => TFollowAccount
  | BlockAccount _ _ => TBlockAccount
  | RemoveFollower _ _ => TRemoveFollower
  | OtherCommand cls => TOther cls
  end.

(** [type(cmd).__name__] *)
Definition type_name (t : CommandType) : string :=
  match t with
  | TRegisterAccount => "RegisterAccount"
  | TFollowAccount => "FollowAccount"
  | TBlockAccount => "BlockAccount"
  | TRemoveFollower => "RemoveFollower"
  | TOther cls => cls
  end.

(** ** The Account aggregate *)

Record Account : Type := mkAccount {
  acc_id : AccountId;
  acc_email : Email;
  acc_username : Username;
  acc_blocked : gset AccountId
}.

(** [Account.block]: the account after the call and the fact returned. *)
Definition Account_block (self : Account) (other : AccountId) : Account * Event :=
  if decide (other ∈ acc_blocked self) then
    (self, AccountBlocked (acc_id self) other)
  else
    (mkAccount (acc_id self) (acc_email self) (acc_username self)
       ({[other]} ∪ acc_blocked self),
     AccountBlocked (acc_id self) other).

(** ** Repositories *)

Record InMemoryAccountRepo : Type := mkAccountRepo {
  by_id : gmap string Account;
  by_email : gmap string string;
  by_username : gmap string string
}.

Definition InMemoryAccountRepo_init : InMemoryAccountRepo := mkAccountRepo ∅ ∅ ∅.

(** Truth value of a [str]: false on the empty string only. *)
Definition str_truthy (s : string) : bool :=
  match s with EmptyString => false | String _ _ => true end.

Definition repo_get (self : InMemoryAccountRepo) (account_id : AccountId)
  : option Account :=
  by_id self !! AccountId_value account_id.

(** [self.by_id.get(aid) if aid else None], [aid] being the result of a
    [dict.get]: [None] and the empty string are both false. *)
Definition get_indexed (self : InMemoryAccountRepo) (aid : option string)
  : option Account :=
  match aid with
  | Some a => if str_truthy a then by_id self !! a else None
  | None => None
  end.

Definition get_by_email (self : InMemoryAccountRepo) (email : Email)
  : option Account :=
  get_indexed self (by_email self !! Email_value email).

Definition get_by_username (self : InMemoryAccountRepo) (username : Username)
  : option Account :=
  get_indexed self (by_username self !! Username_value username).

Definition save (self : InMemoryAccountRepo) (account : Account)
  : InMemoryAccountRepo :=
  let aid := AccountId_value (acc_id account) in
  mkAccountRepo
    (<[aid := account]> (by_id self))
    (<[Email_value (acc_email account) := aid]> (by_email self))
    (<[Username_value (acc_username account) := aid]> (by_username self)).

(** A [defaultdict(set)]. [d[k]] inserts the empty set under a missing [k];
    [dd_get] is the set it then yields, [dd_touch] the dict it leaves. *)
Definition dd_get (d : gmap string (gset string)) (k : string) : gset string :=
  default ∅ (d !! k).

Definition dd_touch (d : gmap string (gset string)) (k : string)
  : gmap string (gset string) :=
  match d !! k with
  | Some _ => d
  | None => <[k := ∅]> d
  end.

(** [d[k].add(v)] and [d[k].discard(v)] *)
Definition dd_add (d : gmap string (gset string)) (k v : string)
  : gmap string (gset string) :=
  <[k := {[v]} ∪ dd_get d k]> d.

Definition dd_discard (d : gmap string (gset string)) (k v : string)
  : gmap string (gset string) :=
  <[k := dd_get d k ∖ {[v]}]> d.

Record InMemoryFollowRepo : Type := mkFollowRepo {
  following : gmap string (gset string);
  followers : gmap string (gset string)
}.

Definition InMemoryFollowRepo_init : InMemoryFollowRepo := mkFollowRepo ∅ ∅.

(** [exists]: its answer, and the repository after the subscript. *)
Definition follow_exists (self : InMemoryFollowRepo) (follower followee : AccountId)
  : bool * InMemoryFollowRepo :=
  (bool_decide (AccountId_value followee ∈
                dd_get (following self) (AccountId_value follower)),
   mkFollowRepo (dd_touch (following self) (AccountId_value follower))
     (followers self)).

Definition follow_add (self : InMemoryFollowRepo) (follower followee : AccountId)
  : InMemoryFollowRepo :=
  let '(present, self1) := follow_exists self follower followee in
  if present then self1
  else
    let fing := dd_add (following self1) (AccountId_value follower)
                  (AccountId_value followee) in
    let fers := dd_add (followers self1) (AccountId_value followee)
                  (AccountId_value follower) in
    mkFollowRepo fing fers.

Definition follow_remove (self : InMemoryFollowRepo) (follower followee : AccountId)
  : InMemoryFollowRepo :=
  mkFollowRepo
    (dd_discard (following self) (AccountId_value follower)
       (AccountId_value followee))
    (dd_discard (followers self) (AccountId_value followee)
       (AccountId_value follower)).

(** ** Dispatch tables

    A [dict] whose keys are classes, in insertion order. *)

Fixpoint dict_get {K V : Type} `{EqDecision K} (d : list (K * V)) (k : K)
  : option V :=
  match d with
  | [] => None
  | (k', v) :: d' => if decide (k = k') then Some v else dict_get d' k
  end.

Fixpoint dict_set {K V : Type} `{EqDecision K} (d : list (K * V)) (k : K) (v : V)
  : list (K * V) :=
  match d with
  | [] => [(k, v)]
  | (k', v') :: d' =>
      if decide (k = k') then (k', v) :: d' else (k', v') :: dict_set d' k v
  end.

(** The bound methods and the closure the tables hold. *)
Inductive HandlerFn : Type :=
| fn_handle_register_account
| fn_handle_follow_account
| fn_handle_block_account
| fn_handle_remove_follower.

Inductive PolicyFn : Type :=
| fn_on_account_blocked
| fn_project.

(** ** Event bus *)

Record EventBus : Type := mkEventBus {
  subscribers : list (EventType * list PolicyFn)
}.

Definition EventBus_init : EventBus := mkEventBus [].

(** [self.subscribers[event_type].append(handler)] on a
    [defaultdict(list)]. *)
Definition subscribe (self : EventBus) (event_type : EventType) (handler : PolicyFn)
  : EventBus :=
  mkEventBus
    (dict_set (subscribers self) event_type
       (default [] (dict_get (subscribers self) event_type) ++ [handler])).

(** [self.subscribers.get(type(event), [])] *)
Definition subscribers_of (self : EventBus) (ev : Event) : list PolicyFn :=
  default [] (dict_get (subscribers self) (type_of_event ev)).

(** ** The application *)

(** The mutable part of an [Application]: the two repositories and the read
    model. [self.handlers] and [self.bus] are filled by [__init__] and never
    written again; they are the constants [Application_handlers] and
    [Application_bus]. *)
Record Application : Type := mkApplication {
  accounts : InMemoryAccountRepo;
  follows : InMemoryFollowRepo;
  read_followers : gmap string (gset string);
  read_following : gmap string (gset string)
}.

Definition with_accounts (app : Application) (a : InMemoryAccountRepo) : Application :=
  mkApplication a (follows app) (read_followers app) (read_following app).

Definition with_follows (app : Application) (f : InMemoryFollowRepo) : Application :=
  mkApplication (accounts app) f (read_followers app) (read_following app).

Definition _register_handlers (handlers : list (CommandType * HandlerFn))
  : list (CommandType * HandlerFn) :=
  let h1 := dict_set handlers TRegisterAccount fn_handle_register_account in
  let h2 := dict_set h1 TFollowAccount fn_handle_follow_account in
  let h3 := dict_set h2 TBlockAccount fn_handle_block_account in
  dict_set h3 TRemoveFollower fn_handle_remove_follower.

Definition _register_policies (bus : EventBus) : EventBus :=
  subscribe bus TAccountBlocked fn_on_account_blocked.

Definition Application_handlers : list (CommandType * HandlerFn) :=
  _register_handlers [].

Definition Application_bus : EventBus :=
  let b1 := _register_policies EventBus_init in
  let b2 := subscribe b1 TAccountRegistered fn_project in
  let b3 := subscribe b2 TAccountFollowed fn_project in
  subscribe b3 TFollowerRemoved fn_project.

(** [Application(accounts, follows)] *)
Definition Application_init (accounts : InMemoryAccountRepo)
  (follows : InMemoryFollowRepo) : Application :=
  mkApplication accounts follows ∅ ∅.

(** The application of [demo]: both repositories empty. *)
Definition initial : Application :=
  Application_init InMemoryAccountRepo_init InMemoryFollowRepo_init.

(** *** Outcomes

    The calls of [handle], of [publish] and of subscribers are logged, each
    with the number of [handle] calls it is nested in. *)

Inductive Call : Type :=
| call_handle (depth : nat) (cmd : Command)
| call_publish (depth : nat) (ev : Event)
| call_subscriber (depth : nat) (fn : PolicyFn) (ev : Event).

Inductive Outcome (A : Type) : Type :=
| Returned (a : A) (app : Application) (log : list Call)
| Raised (e : Exn) (app : Application) (log : list Call)
| OutOfFuel.

Arguments Returned {A} a app log.
Arguments Raised {A} e app log.
Arguments OutOfFuel {A}.

(** The outcome [o] of a computation that ran after the calls [log0]. *)
Definition after {A : Type} (log0 : list Call) (o : Outcome A) : Outcome A :=
  match o with
  | Returned a app log => Returned a app (log0 ++ log)
  | Raised e app log => Raised e app (log0 ++ log)
  | OutOfFuel => OutOfFuel
  end.

(** Sequencing: an exception ends the computation and keeps the state
    reached. *)
Definition bind {A B : Type} (o : Outcome A) (k : A → Application → Outcome B)
  : Outcome B :=
  match o with
  | Returned a app log => after log (k a app)
  | Raised e app log => Raised e app log
  | OutOfFuel => OutOfFuel
  end.

(** [for x in l: f(x)] *)
Fixpoint for_each {A : Type} (f : A → Application → Outcome unit) (l : list A)
  (app : Application) : Outcome unit :=
  match l with
  | [] => Returned tt app []
  | x :: l' => bind (f x app) (λ _ app', for_each f l' app')
  end.

(** Truth value of an [Optional[Account]]: an [Account] is always true. *)
Definition truthy {A : Type} (o : option A) : bool :=
  match o with Some _ => true | None => false end.

(** *** Handlers *)

Definition _handle_register_account (rnd : string) (app : Application)
  (cmd : Command) : Outcome (list Event) :=
  match cmd with
  | RegisterAccount email username =>
      if truthy (get_by_email (accounts app) email)
         || truthy (get_by_username (accounts app) username)
      then
        Returned [AccountAlreadyExists (Some email) (Some username)
                    "Duplicate email or username"] app []
      else
        let acc := mkAccount (AccountId_new rnd) email username ∅ in
        let evt := AccountRegistered (acc_id acc) (acc_email acc) (acc_username acc) in
        Returned [evt] (with_accounts app (save (accounts app) acc)) []
  | _ => Raised AttributeError app []
  end.

Definition _handle_follow_account (app : Application) (cmd : Command)
  : Outcome (list Event) :=
  match cmd with
  | FollowAccount follower_id followee_id =>
      if decide (follower_id = followee_id) then
        Returned [FollowRejectedBlocked follower_id followee_id
                    "Cannot follow self"] app []
      else
        match repo_get (accounts app) follower_id,
              repo_get (accounts app) followee_id with
        | Some follower, Some followee =>
            let blocked_either_way :=
              bool_decide (followee_id ∈ acc_blocked follower)
              || bool_decide (follower_id ∈ acc_blocked followee) in
            if blocked_either_way then
              Returned [FollowRejectedBlocked follower_id followee_id
                          "Blocked relationship"] app []
            else
              let '(present, follows1) :=
                follow_exists (follows app) follower_id followee_id in
              if present then Returned [] (with_follows app follows1) []
              else
                Returned [AccountFollowed follower_id followee_id]
                  (with_follows app (follow_add follows1 follower_id followee_id))
                  []
        | _, _ =>
            Returned [FollowRejectedBlocked follower_id followee_id
                        "Unknown accounts"] app []
        end
  | _ => Raised AttributeError app []
  end.

(** [blocker.block(...)] mutates the object that [by_id] holds under
    [blocker_id.value]; [mutated] is the repository seen after it. *)
Definition mutated (self : InMemoryAccountRepo) (account_id : AccountId)
  (account : Account) : InMemoryAccountRepo :=
  mkAccountRepo (<[AccountId_value account_id := account]> (by_id self))
    (by_email self) (by_username self).

Definition _handle_block_account (app : Application) (cmd : Command)
  : Outcome (list Event) :=
  match cmd with
  | BlockAccount blocker_id blocked_id =>
      if decide (blocker_id = blocked_id) then Returned [] app []
      else
        match repo_get (accounts app) blocker_id,
              repo_get (accounts app) blocked_id with
        | Some blocker, Some blocked =>
            let '(blocker', evt) := Account_block blocker blocked_id in
            let accounts1 := mutated (accounts app) blocker_id blocker' in
            Returned [evt] (with_accounts app (save accounts1 blocker')) []
        | _, _ => Returned [] app []
        end
  | _ => Raised AttributeError app []
  end.

Definition _handle_remove_follower (app : Application) (cmd : Command)
  : Outcome (list Event) :=
  match cmd with
  | RemoveFollower follower_id followee_id =>
      let '(present, follows1) :=
        follow_exists (follows app) follower_id followee_id in
      if negb present then Returned [] (with_follows app follows1) []
      else
        let evt := FollowerRemoved follower_id followee_id "Blocked" in
        Returned [evt]
          (with_follows app (follow_remove follows1 follower_id followee_id)) []
  | _ => Raised AttributeError app []
  end.

Definition call_handler (handler : HandlerFn) (rnd : string) (app : Application)
  (cmd : Command) : Outcome (list Event) :=
  match handler with
  | fn_handle_register_account => _handle_register_account rnd app cmd
  | fn_handle_follow_account => _handle_follow_account app cmd
  | fn_handle_block_account => _handle_block_account app cmd
  | fn_handle_remove_follower => _handle_remove_follower app cmd
  end.

(** *** Read model projector *)

Definition _project (app : Application) (ev : Event) : Application :=
  match ev with
  | AccountRegistered _ _ _ => app
  | AccountFollowed follower_id followee_id =>
      mkApplication (accounts app) (follows app)
        (dd_add (read_followers app) (AccountId_value followee_id)
           (AccountId_value follower_id))
        (dd_add (read_following app) (AccountId_value follower_id)
           (AccountId_value followee_id))
  | FollowerRemoved follower_id followee_id _ =>
      mkApplication (accounts app) (follows app)
        (dd_discard (read_followers app) (AccountId_value followee_id)
           (AccountId_value follower_id))
        (dd_discard (read_following app) (AccountId_value follower_id)
           (AccountId_value followee_id))
  | _ => app
  end.

(** *** Policies, publishing and the entry point *)

Section Dispatch.

(** [self.handle] as a subscriber calls it, one level deeper. *)
Variable handle_nested : Application → Command → Outcome (list Event).
Variable depth : nat.

Definition on_account_blocked (app : Application) (ev : Event) : Outcome unit :=
  match ev with
  | AccountBlocked blocker_id blocked_id =>
      let follower := blocked_id in
      let followee := blocker_id in
      bind (handle_nested app (RemoveFollower follower followee))
        (λ _ app', Returned tt app' [])
  | _ => Raised AssertionError app []
  end.

Definition call_policy (fn : PolicyFn) (ev : Event) (app : Application)
  : Outcome unit :=
  after [call_subscriber depth fn ev]
    match fn with
    | fn_on_account_blocked => on_account_blocked app ev
    | fn_project => Returned tt (_project app ev) []
    end.

(** [EventBus.publish] on the bus of the application. *)
Definition publish (ev : Event) (app : Application) : Outcome unit :=
  after [call_publish depth ev]
    (for_each (λ fn, call_policy fn ev) (subscribers_of Application_bus ev) app).

End Dispatch.

(** [Application.handle]. [fuel] bounds the nesting of [handle] calls;
    [rnd] is what [uuid.uuid4()] yields during the call. *)
Fixpoint handle (fuel : nat) (rnd : string) (depth : nat) (app : Application)
  (cmd : Command) : Outcome (list Event) :=
  match fuel with
  | O => OutOfFuel
  | S fuel' =>
      after [call_handle depth cmd]
        match dict_get Application_handlers (type_of_command cmd) with
        | None =>
            Raised (ValueError ("No handler for " +:+ type_name (type_of_command cmd)))
              app []
        | Some handler =>
            bind (call_handler handler rnd app cmd) (λ events app1,
            bind (for_each (publish (handle fuel' rnd (S depth)) depth) events app1)
              (λ _ app2, Returned events app2 []))
        end
  end.

(** ** Observations and reachable states *)

(** The follow repository holds the edge [follower → followee]. *)
Definition edge (app : Application) (follower followee : AccountId) : Prop :=
  AccountId_value followee ∈
    dd_get (following (follows app)) (AccountId_value follower).

#[global] Instance edge_dec app f e : Decision (edge app f e).
Proof. unfold edge. apply _. Defined.

(** The events [handle] published itself, and those published by the
    [handle] calls nested in it. *)
Definition published_at (d : nat) (log : list Call) : list Event :=
  omap (λ c, match c with
             | call_publish d' ev => if decide (d' = d) then Some ev else None
             | _ => None
             end) log.

Definition published_below (d : nat) (log : list Call) : list Event :=
  omap (λ c, match c with
             | call_publish d' ev => if decide (d < d') then Some ev else None
             | _ => None
             end) log.

(** The commands of the [handle] calls nested in another one. *)
Definition nested_handles (log : list Call) : list Command :=
  omap (λ c, match c with
             | call_handle (S _) cmd => Some cmd
             | _ => None
             end) log.

Definition is_remove_follower (cmd : Command) : Prop :=
  match cmd with RemoveFollower _ _ => True | _ => False end.

(** The nesting depths of the [handle] calls of a log. *)
Definition handle_depths (log : list Call) : list nat :=
  omap (λ c, match c with call_handle d _ => Some d | _ => None end) log.

Definition log_of {A : Type} (o : Outcome A) : list Call :=
  match o with
  | Returned _ _ log => log
  | Raised _ _ log => log
  | OutOfFuel => []
  end.

(** What is assumed of [uuid.uuid4()]: its string is not empty and names
    no account persisted so far. *)
Definition fresh_uuid (app : Application) (rnd : string) : Prop :=
  rnd ≠ "" ∧ by_id (accounts app) !! rnd = None.

(** The states [handle] calls from outside lead to, from [initial]. *)
Inductive reachable : Application → Prop :=
| reachable_initial : reachable initial
| reachable_returned fuel rnd app cmd events app' log :
    reachable app → fresh_uuid app rnd →
    handle fuel rnd 0 app cmd = Returned events app' log →
    reachable app'
| reachable_raised fuel rnd app cmd e app' log :
    reachable app → fresh_uuid app rnd →
    handle fuel rnd 0 app cmd = Raised e app' log →
    reachable app'.

(** The read model agrees with the follow repository. *)
Definition read_model_consistent (app : Application) : Prop :=
  ∀ x : string,
    dd_get (read_following app) x = dd_get (following (follows app)) x ∧
    dd_get (read_followers app) x = dd_get (followers (follows app)) x.

(** The account repository is well indexed: an account is held under its own
    id, which is not empty, and the two indexes name exactly the persisted
    accounts. *)
Record accounts_wf (r : InMemoryAccountRepo) : Prop := mk_accounts_wf {
  wf_key : ∀ k acc, by_id r !! k = Some acc →
    AccountId_value (acc_id acc) = k ∧ k ≠ "" ∧
    by_email r !! Email_value (acc_email acc) = Some k ∧
    by_username r !! Username_value (acc_username acc) = Some k;
  wf_email : ∀ e k, by_email r !! e = Some k →
    ∃ acc, by_id r !! k = Some acc ∧ Email_value (acc_email acc) = e;
  wf_username : ∀ u k, by_username r !! u = Some k →
    ∃ acc, by_id r !! k = Some acc ∧ Username_value (acc_username acc) = u
}.

(** No account follows itself. *)
Definition no_self_loop (app : Application) : Prop :=
  ∀ x : AccountId, ¬ edge app x x.

(** No edge leads to an account that blocks its follower. *)
Definition no_edge_to_blocker (app : Application) : Prop :=
  ∀ follower followee acc,
    edge app follower followee →
    repo_get (accounts app) followee = Some acc →
    follower ∉ acc_blocked acc.

(** No edge leaves an account that blocks the followee. *)
Definition no_edge_from_blocker (app : Application) : Prop :=
  ∀ follower followee acc,
    edge app follower followee →
    repo_get (accounts app) follower = Some acc →
    followee ∉ acc_blocked acc.

(** The log of publishing [events], none of which has a policy. *)
Definition publish_log (d : nat) (events : list Event) : list Call :=
  flat_map (λ ev, call_publish d ev ::
                  map (λ fn, call_subscriber d fn ev)
                    (subscribers_of Application_bus ev)) events.

Definition plain (ev : Event) : Prop := type_of_event ev ≠ TAccountBlocked.

(** The account [Account.block] leaves. *)
Definition blocking (self : Account) (other : AccountId) : Account :=
  mkAccount (acc_id self) (acc_email self) (acc_username self)
    ({[other]} ∪ acc_blocked self).

(** The two indexes of the follow repository hold the same edges. *)
Definition index_consistent (r : InMemoryFollowRepo) : Prop :=
  ∀ x y : string, y ∈ dd_get (following r) x ↔ x ∈ dd_get (followers r) y.

(** What every reachable state satisfies. *)
Record app_inv (app : Application) : Prop := mk_app_inv {
  inv_accounts : accounts_wf (accounts app);
  inv_index : index_consistent (follows app);
  inv_read_model : read_model_consistent app;
  inv_no_self_loop : no_self_loop app;
  inv_no_edge_to_blocker : no_edge_to_blocker app
}.

(** The state between [_handle_block_account] and the policy: the one edge
    that may lead to an account blocking its follower is [a → b]. *)
Record app_inv_but (a b : AccountId) (app : Application) : Prop := mk_app_inv_but {
  but_accounts : accounts_wf (accounts app);
  but_index : index_consistent (follows app);
  but_read_model : read_model_consistent app;
  but_no_self_loop : no_self_loop app;
  but_no_edge_to_blocker : ∀ follower followee acc,
    edge app follower followee →
    repo_get (accounts app) followee = Some acc →
    follower ∈ acc_blocked acc →
    follower = a ∧ followee = b
}.

(** The state an outcome leaves, if any. *)
Definition holds_after {A : Type} (P : Application → Prop) (o : Outcome A) : Prop :=
  match o with
  | Returned _ app _ => P app
  | Raised _ app _ => P app
  | OutOfFuel => True
  end.

(** The state an outcome leaves; [dflt] when the fuel ran out. *)
Definition app_after {A : Type} (dflt : Application) (o : Outcome A) : Application :=
  match o with
  | Returned _ app _ => app
  | Raised _ app _ => app
  | OutOfFuel => dflt
  end.

(** One call from outside, with fuel for the policy's nested call. *)
Definition run (rnd : string) (app : Application) (cmd : Command) : Application :=
  app_after app (handle 2 rnd 0 app cmd).

(** The scenario of [demo], with well-formed emails and with [uuid4]
    yielding ["alice"] and ["bob"]. *)
Definition alice : AccountId := mkAccountId "alice".
Definition bob : AccountId := mkAccountId "bob".

Definition demo_registered : Application :=
  run "bob" (run "alice" initial
               (RegisterAccount (mkEmail "a@x.com") (mkUsername "alice_uk")))
    (RegisterAccount (mkEmail "b@x.com") (mkUsername "bob_uk")).

Definition demo_following : Application :=
  run "c" demo_registered (FollowAccount alice bob).

(** Bob blocks Alice, as in [demo]. *)
Definition demo_blocked : Application :=
  run "d" demo_following (BlockAccount bob alice).

(** Alice, who follows Bob, blocks him. *)
Definition demo_follower_blocks : Application :=
  run "d" demo_following (BlockAccount alice bob).

(** Some persisted account has this email or this username. *)
Definition taken (app : Application) (email : Email) (username : Username) : Prop :=
  ∃ k acc, by_id (accounts app) !! k = Some acc ∧
           (acc_email acc = email ∨ acc_username acc = username).

(** The two shapes of the log of a [handle] call that returns [events]:
    either no event has a policy, or the one event is an [AccountBlocked]
    and the policy handles a [RemoveFollower] one level deeper, whose
    events [events2] have no policy. *)
Inductive log_shape (d : nat) (cmd : Command) (events : list Event)
  : list Call → Prop :=
| shape_plain :
    Forall plain events →
    log_shape d cmd events (call_handle d cmd :: publish_log d events)
| shape_cascade b a events2 :
    events = [AccountBlocked b a] →
    events2 = [] ∨ events2 = [FollowerRemoved a b "Blocked"] →
    log_shape d cmd events
      (call_handle d cmd ::
       call_publish d (AccountBlocked b a) ::
       call_subscriber d fn_on_account_blocked (AccountBlocked b a) ::
       call_handle (S d) (RemoveFollower a b) ::
       publish_log (S d) events2).

(** ** The rest of the repositories *)

(** [sorted(s)] on a set of [str]: its elements in ascending order of code
    points. The elements of a set are distinct and the order is total, so
    this list does not depend on the order the set is iterated in, nor on
    the sorting algorithm. *)
Definition sorted (s : gset string) : list string :=
  merge_sort String.le (elements s).

(** [followers_of] and [following_of]: the list returned, and the
    repository after the subscript. *)
Definition followers_of (self : InMemoryFollowRepo) (account : AccountId)
  : list AccountId * InMemoryFollowRepo :=
  (mkAccountId <$> sorted (dd_get (followers self) (AccountId_value account)),
   mkFollowRepo (following self)
     (dd_touch (followers self) (AccountId_value account))).

Definition following_of (self : InMemoryFollowRepo) (account : AccountId)
  : list AccountId * InMemoryFollowRepo :=
  (mkAccountId <$> sorted (dd_get (following self) (AccountId_value account)),
   mkFollowRepo (dd_touch (following self) (AccountId_value account))
     (followers self)).

(** The edges of a follow repository, read off each of its two indexes. *)
Definition follows_edge (r : InMemoryFollowRepo) (follower followee : AccountId)
  : Prop :=
  AccountId_value followee ∈ dd_get (following r) (AccountId_value follower).

Definition followed_by (r : InMemoryFollowRepo) (follower followee : AccountId)
  : Prop :=
  AccountId_value follower ∈ dd_get (followers r) (AccountId_value followee).

#[global] Instance follows_edge_dec r f e : Decision (follows_edge r f e).
Proof. unfold follows_edge. apply _. Defined.

#[global] Instance followed_by_dec r f e : Decision (followed_by r f e).
Proof. unfold followed_by. apply _. Defined.

(** Two follow repositories hold the same sets; they may differ in the keys
    that hold the empty set. *)
Definition same_sets (r r' : InMemoryFollowRepo) : Prop :=
  ∀ x : string,
    dd_get (following r') x = dd_get (following r) x ∧
    dd_get (followers r') x = dd_get (followers r) x.

(** ** What a [handle] call does to the state *)

(** A refusal: the two events that report that nothing was done. *)
Definition is_refusal (ev : Event) : Prop :=
  match ev with
  | AccountAlreadyExists _ _ _ | FollowRejectedBlocked _ _ _ => True
  | _ => False
  end.

(** What one [handle] call from outside that draws [rnd] returns, and the
    state it leaves: a refusal or nothing, with the state as it was or, for
    a [RemoveFollower], after the subscript of the follow repository; a
    registration; a new edge; the removal of an edge; a block followed by
    what the policy does. *)
Inductive effect (rnd : string) (app : Application)
  : list Event → Application → Prop :=
| effect_duplicate email username :
    truthy (get_by_email (accounts app) email)
    || truthy (get_by_username (accounts app) username) = true →
    effect rnd app
      [AccountAlreadyExists (Some email) (Some username)
         "Duplicate email or username"] app
| effect_rejected f e reason :
    f = e ∨
    repo_get (accounts app) f = None ∨ repo_get (accounts app) e = None ∨
    (∃ af ae, repo_get (accounts app) f = Some af ∧
              repo_get (accounts app) e = Some ae ∧
              (e ∈ acc_blocked af ∨ f ∈ acc_blocked ae)) →
    effect rnd app [FollowRejectedBlocked f e reason] app
| effect_nothing : effect rnd app [] app
| effect_looked_up f e :
    ¬ edge app f e →
    effect rnd app [] (with_follows app (follow_exists (follows app) f e).2)
| effect_registered email username :
    truthy (get_by_email (accounts app) email)
    || truthy (get_by_username (accounts app) username) = false →
    effect rnd app [AccountRegistered (mkAccountId rnd) email username]
      (with_accounts app
         (save (accounts app) (mkAccount (mkAccountId rnd) email username ∅)))
| effect_followed f e af ae :
    f ≠ e →
    repo_get (accounts app) f = Some af →
    repo_get (accounts app) e = Some ae →
    e ∉ acc_blocked af → f ∉ acc_blocked ae →
    ¬ edge app f e →
    effect rnd app [AccountFollowed f e]
      (_project
         (with_follows app (follow_add (follow_exists (follows app) f e).2 f e))
         (AccountFollowed f e))
| effect_removed f e :
    edge app f e →
    effect rnd app [FollowerRemoved f e "Blocked"]
      (_project (with_follows app (follow_remove (follows app) f e))
         (FollowerRemoved f e "Blocked"))
| effect_blocked b a blocker blocked app1 app2 :
    b ≠ a →
    repo_get (accounts app) b = Some blocker →
    repo_get (accounts app) a = Some blocked →
    app1 = with_accounts app
             (save (mutated (accounts app) b (blocking blocker a))
                (blocking blocker a)) →
    (edge app1 a (acc_id blocker) ∧
     app2 = _project
              (with_follows app1 (follow_remove (follows app1) a (acc_id blocker)))
              (FollowerRemoved a (acc_id blocker) "Blocked")) ∨
    (¬ edge app1 a (acc_id blocker) ∧
     app2 = with_follows app1
              (follow_exists (follows app1) a (acc_id blocker)).2) →
    effect rnd app [AccountBlocked (acc_id blocker) a] app2.

(** Nothing that is read has changed: the accounts, the read model and the
    sets of the follow repository. *)
Definition same_observable (app app' : Application) : Prop :=
  accounts app' = accounts app ∧
  read_followers app' = read_followers app ∧
  read_following app' = read_following app ∧
  same_sets (follows app) (follows app').

(** Every account of [app] is still persisted in [app'], under the same
    key, with the same id, email and username, and blocks at least the
    accounts it blocked. *)
Definition accounts_kept (app app' : Application) : Prop :=
  ∀ k acc, by_id (accounts app) !! k = Some acc →
    ∃ acc', by_id (accounts app') !! k = Some acc' ∧
            acc_id acc' = acc_id acc ∧
            acc_email acc' = acc_email acc ∧
            acc_username acc' = acc_username acc ∧
            acc_blocked acc ⊆ acc_blocked acc'.

(** Both ends of every edge are persisted accounts. *)
Definition edges_between_accounts (app : Application) : Prop :=
  ∀ f e, edge app f e →
    is_Some (repo_get (accounts app) f) ∧ is_Some (repo_get (accounts app) e).

(** No account blocks itself, and every blocked id is a persisted
    account. *)
Definition blocks_between_accounts (app : Application) : Prop :=
  ∀ x acc y, repo_get (accounts app) x = Some acc → y ∈ acc_blocked acc →
    y ≠ x ∧ is_Some (repo_get (accounts app) y).

(** What an event says of the state the [handle] call that returned it has
    left. *)
Definition event_holds (app : Application) (ev : Event) : Prop :=
  match ev with
  | AccountRegistered account_id email username =>
      let account := mkAccount account_id email username ∅ in
      repo_get (accounts app) account_id = Some account ∧
      get_by_email (accounts app) email = Some account ∧
      get_by_username (accounts app) username = Some account
  | AccountAlreadyExists (Some email) (Some username) _ =>
      taken app email username
  | AccountAlreadyExists _ _ _ => True
  | AccountFollowed follower_id followee_id =>
      edge app follower_id followee_id ∧
      AccountId_value followee_id ∈
        dd_get (read_following app) (AccountId_value follower_id) ∧
      AccountId_value follower_id ∈
        dd_get (read_followers app) (AccountId_value followee_id)
  | FollowRejectedBlocked follower_id followee_id _ =>
      follower_id = followee_id ∨
      repo_get (accounts app) follower_id = None ∨
      repo_get (accounts app) followee_id = None ∨
      (∃ af ae, repo_get (accounts app) follower_id = Some af ∧
                repo_get (accounts app) followee_id = Some ae ∧
                (followee_id ∈ acc_blocked af ∨ follower_id ∈ acc_blocked ae))
  | AccountBlocked blocker_id blocked_id =>
      blocker_id ≠ blocked_id ∧
      is_Some (repo_get (accounts app) blocked_id) ∧
      (∃ blocker, repo_get (accounts app) blocker_id = Some blocker ∧
                  blocked_id ∈ acc_blocked blocker) ∧
      ¬ edge app blocked_id blocker_id
  | FollowerRemoved follower_id followee_id _ =>
      ¬ edge app follower_id followee_id ∧
      (AccountId_value followee_id ∉
         dd_get (read_following app) (AccountId_value follower_id)) ∧
      (AccountId_value follower_id ∉
         dd_get (read_followers app) (AccountId_value followee_id))
  end.

(** * new.py: the name of a post *)

(** [str.lstrip()] and [str.rstrip()] with no argument: whitespace is what
    [str.isspace] holds of, [is_space] for code points below 256. *)
Fixpoint str_lstrip (s : string) : string :=
  match s with
  | EmptyString => EmptyString
  | String c s' => if is_space c then str_lstrip s' else s
  end.

Fixpoint str_rstrip (s : string) : string :=
  match s with
  | EmptyString => EmptyString
  | String c s' =>
      match str_rstrip s' with
      | EmptyString => if is_space c then EmptyString else String c EmptyString
      | r => String c r
      end
  end.

(** [s.strip()] *)
Definition str_strip (s : string) : string := str_rstrip (str_lstrip s).

Fixpoint string_map (f : ascii → ascii) (s : string) : string :=
  match s with
  | EmptyString => EmptyString
  | String c s' => String (f c) (string_map f s')
  end.

(** [s.replace(old, new)] where [old] and [new] are one character each. *)
Definition chr_replace (old new c : ascii) : ascii :=
  if Ascii.eqb c old then new else c.

Definition str_replace_chr (old new : ascii) (s : string) : string :=
  string_map (chr_replace old new) s.

(** [c.lower()] for a code point below 256: [A] to [Z], and 0xC0 to 0xDE
    but for the multiplication sign 0xD7, move up by 32. *)
Definition chr_lower (c : ascii) : ascii :=
  let n := nat_of_ascii c in
  if ((65 <=? n) && (n <=? 90) ||
      (192 <=? n) && (n <=? 222) && negb (n =? 215))%nat
  then ascii_of_nat (n + 32) else c.

(** [s.lower()] *)
Definition str_lower (s : string) : string := string_map chr_lower s.

Definition sanitise_filename (filename : string) : string :=
  str_lower (str_replace_chr " " "-" (str_strip filename)).

(** Neither a space nor a character [lower] would change. *)
Definition is_sanitised_chr (c : ascii) : bool :=
  negb (Ascii.eqb c " ") && Ascii.eqb (chr_lower c) c.

(** ** The defaultdict operations *)

Lemma dd_get_touch (d : gmap string (gset string)) (k x : string) :
  dd_get (dd_touch d k) x = dd_get d x.
Proof.
  unfold dd_get, dd_touch. destruct (d !! k) eqn:Hk; [done|].
  destruct (decide (k = x)) as [->|Hne].
  - by rewrite lookup_insert_eq, Hk.
  - by rewrite lookup_insert_ne.
Qed.

Lemma dd_touch_present (d : gmap string (gset string)) (k : string) :
  is_Some (d !! k) → dd_touch d k = d.
Proof. intros [s Hs]. unfold dd_touch. by rewrite Hs. Qed.

Lemma dd_touch_is_Some (d : gmap string (gset string)) (k : string) :
  is_Some (dd_touch d k !! k).
Proof.
  unfold dd_touch. destruct (d !! k) eqn:Hk; [by rewrite Hk|].
  rewrite lookup_insert_eq. by eexists.
Qed.

Lemma dd_touch_idem (d : gmap string (gset string)) (k : string) :
  dd_touch (dd_touch d k) k = dd_touch d k.
Proof. apply dd_touch_present, dd_touch_is_Some. Qed.

Lemma dd_get_add (d : gmap string (gset string)) (k v x : string) :
  dd_get (dd_add d k v) x =
  if decide (k = x) then {[v]} ∪ dd_get d k else dd_get d x.
Proof.
  unfold dd_add, dd_get at 1. case_decide as Hk.
  - subst. by rewrite lookup_insert_eq.
  - by rewrite lookup_insert_ne.
Qed.

Lemma dd_get_discard (d : gmap string (gset string)) (k v x : string) :
  dd_get (dd_discard d k v) x =
  if decide (k = x) then dd_get d k ∖ {[v]} else dd_get d x.
Proof.
  unfold dd_discard, dd_get at 1. case_decide as Hk.
  - subst. by rewrite lookup_insert_eq.
  - by rewrite lookup_insert_ne.
Qed.

Lemma dd_discard_is_Some (d : gmap string (gset string)) (k v : string) :
  is_Some (dd_discard d k v !! k).
Proof. unfold dd_discard. rewrite lookup_insert_eq. by eexists. Qed.

Lemma dd_elem_is_Some (d : gmap string (gset string)) (k v : string) :
  v ∈ dd_get d k → is_Some (d !! k).
Proof.
  unfold dd_get. destruct (d !! k); [by eexists|]. simpl. set_solver.
Qed.

(** ** The follow repository *)

Lemma follow_exists_fst (r : InMemoryFollowRepo) (f e : AccountId) :
  (follow_exists r f e).1 =
  bool_decide (AccountId_value e ∈ dd_get (following r) (AccountId_value f)).
Proof. done. Qed.

Lemma follow_exists_present (r : InMemoryFollowRepo) (f e : AccountId) :
  AccountId_value e ∈ dd_get (following r) (AccountId_value f) →
  follow_exists r f e = (true, r).
Proof.
  intros He. unfold follow_exists. rewrite bool_decide_eq_true_2 by done.
  rewrite dd_touch_present by (by eapply dd_elem_is_Some).
  by destruct r.
Qed.

(** ** Publishing *)

Section Publish.

Variable h : Application → Command → Outcome (list Event).
Variable d : nat.

Lemma publish_blocked app b a :
  publish h d (AccountBlocked b a) app =
  after [call_publish d (AccountBlocked b a);
         call_subscriber d fn_on_account_blocked (AccountBlocked b a)]
    (bind (h app (RemoveFollower a b)) (λ _ app', Returned tt app' [])).
Proof.
  unfold publish, subscribers_of. simpl.
  unfold call_policy, on_account_blocked.
  destruct (h app (RemoveFollower a b)) as [evs app' log|e app' log|]; simpl;
    by rewrite ?app_nil_r.
Qed.

End Publish.

(** ** Unfolding [handle] *)

Lemma handle_S n rnd d app cmd :
  handle (S n) rnd d app cmd =
  after [call_handle d cmd]
    match dict_get Application_handlers (type_of_command cmd) with
    | None =>
        Raised (ValueError ("No handler for " +:+ type_name (type_of_command cmd)))
          app []
    | Some handler =>
        bind (call_handler handler rnd app cmd) (λ events app1,
        bind (for_each (publish (handle n rnd (S d)) d) events app1)
          (λ _ app2, Returned events app2 []))
    end.
Proof. reflexivity. Qed.

Lemma publish_plain h d ev app :
  plain ev →
  publish h d ev app =
  Returned tt (_project app ev)
    (call_publish d ev ::
     map (λ fn, call_subscriber d fn ev) (subscribers_of Application_bus ev)).
Proof. intros Hp. destruct ev; try reflexivity. by destruct Hp. Qed.

Lemma for_each_publish_plain h d events app :
  Forall plain events →
  for_each (publish h d) events app =
  Returned tt (foldl _project app events) (publish_log d events).
Proof.
  intros Hp. revert app. induction Hp as [|ev events Hev _ IH]; intros app.
  - reflexivity.
  - cbn [for_each foldl]. rewrite publish_plain by done.
    cbn [bind]. rewrite IH. reflexivity.
Qed.

Lemma handle_plain n rnd d app cmd handler events app1 :
  dict_get Application_handlers (type_of_command cmd) = Some handler →
  call_handler handler rnd app cmd = Returned events app1 [] →
  Forall plain events →
  handle (S n) rnd d app cmd =
  Returned events (foldl _project app1 events)
    (call_handle d cmd :: publish_log d events).
Proof.
  intros Hh Hc Hp. rewrite handle_S, Hh, Hc. cbn [bind after List.app].
  rewrite for_each_publish_plain by done. cbn [bind after List.app].
  by rewrite app_nil_r.
Qed.

(** The handlers return, with an empty log of their own. *)

Lemma register_returns rnd app e u :
  ∃ ev app1,
    _handle_register_account rnd app (RegisterAccount e u) = Returned [ev] app1 [] ∧
    plain ev.
Proof.
  unfold _handle_register_account.
  destruct (truthy _ || truthy _); eexists _, _; (split; [reflexivity|done]).
Qed.

Lemma follow_returns app f e :
  ∃ events app1,
    _handle_follow_account app (FollowAccount f e) = Returned events app1 [] ∧
    Forall plain events ∧ (length events ≤ 1)%nat.
Proof.
  unfold _handle_follow_account.
  repeat case_match; eexists _, _;
    (split; [reflexivity|split; [repeat constructor; done|simpl; lia]]).
Qed.

Lemma remove_returns app f e :
  ∃ events app1,
    _handle_remove_follower app (RemoveFollower f e) = Returned events app1 [] ∧
    Forall plain events ∧ (length events ≤ 1)%nat.
Proof.
  unfold _handle_remove_follower.
  repeat case_match; eexists _, _;
    (split; [reflexivity|split; [repeat constructor; done|simpl; lia]]).
Qed.

Lemma block_returns app b a :
  ∃ events app1,
    _handle_block_account app (BlockAccount b a) = Returned events app1 [] ∧
    (events = [] ∨ ∃ blocker, repo_get (accounts app) b = Some blocker ∧
                   events = [AccountBlocked (acc_id blocker) a]).
Proof.
  unfold _handle_block_account, Account_block.
  repeat case_match; simplify_eq; eexists _, _;
    (split; [reflexivity|]); eauto.
Qed.

(** [handle] on a [RemoveFollower] command, at any depth. *)
Lemma handle_remove_follower n rnd d app f e :
  ∃ events app1,
    _handle_remove_follower app (RemoveFollower f e) = Returned events app1 [] ∧
    Forall plain events ∧
    handle (S n) rnd d app (RemoveFollower f e) =
    Returned events (foldl _project app1 events)
      (call_handle d (RemoveFollower f e) :: publish_log d events).
Proof.
  destruct (remove_returns app f e) as (events & app1 & Hr & Hp & _).
  exists events, app1. split; [done|]. split; [done|].
  by eapply handle_plain.
Qed.

Lemma remove_returns_removed app f e events app1 :
  _handle_remove_follower app (RemoveFollower f e) = Returned events app1 [] →
  events = [] ∨ events = [FollowerRemoved f e "Blocked"].
Proof.
  unfold _handle_remove_follower. repeat case_match; intros; simplify_eq; eauto.
Qed.

(** [handle] on a [BlockAccount] command: either the handler emits nothing,
    or its [AccountBlocked] makes the policy handle one [RemoveFollower]. *)
Lemma handle_block_account n rnd d app b a :
  ∃ events app1,
    _handle_block_account app (BlockAccount b a) = Returned events app1 [] ∧
    ((events = [] ∧
      ∀ m, handle (S m) rnd d app (BlockAccount b a) =
           Returned [] app1 [call_handle d (BlockAccount b a)]) ∨
     (∃ blocker events2 app2,
        repo_get (accounts app) b = Some blocker ∧
        events = [AccountBlocked (acc_id blocker) a] ∧
        _handle_remove_follower app1 (RemoveFollower a (acc_id blocker)) =
          Returned events2 app2 [] ∧
        Forall plain events2 ∧
        handle 1 rnd d app (BlockAccount b a) = OutOfFuel ∧
        handle (S (S n)) rnd d app (BlockAccount b a) =
        Returned events (foldl _project app2 events2)
          (call_handle d (BlockAccount b a) ::
           call_publish d (AccountBlocked (acc_id blocker) a) ::
           call_subscriber d fn_on_account_blocked
             (AccountBlocked (acc_id blocker) a) ::
           call_handle (S d) (RemoveFollower a (acc_id blocker)) ::
           publish_log (S d) events2))).
Proof.
  destruct (block_returns app b a) as (events & app1 & Hb & [->|Hev]).
  - exists [], app1. split; [done|]. left. split; [done|]. intros m.
    by rewrite (handle_plain _ _ _ _ _ fn_handle_block_account [] app1).
  - destruct Hev as (blocker & Hget & ->).
    exists [AccountBlocked (acc_id blocker) a], app1. split; [done|]. right.
    destruct (handle_remove_follower n rnd (S d) app1 a (acc_id blocker))
      as (events2 & app2 & Hr & Hp & Hh).
    exists blocker, events2, app2. repeat (split; [done|]).
    split.
    + rewrite handle_S. cbn [type_of_command]. simpl dict_get.
      cbn [call_handler]. rewrite Hb. cbn [bind after for_each List.app].
      by rewrite publish_blocked.
    + rewrite handle_S. cbn [type_of_command]. simpl dict_get.
      cbn [call_handler]. rewrite Hb. cbn [bind after for_each List.app].
      rewrite publish_blocked, Hh. cbn [bind after List.app].
      by rewrite !app_nil_r.
Qed.

(** *** Fuel *)

Lemma handle_fuel_2 n rnd d app cmd :
  handle (S (S n)) rnd d app cmd = handle 2 rnd d app cmd.
Proof.
  destruct cmd as [e u|f e|b a|f e|cls].
  - destruct (register_returns rnd app e u) as (ev & app1 & Hr & Hp).
    by rewrite !(handle_plain _ _ _ _ _ fn_handle_register_account [ev] app1)
      by (done || by repeat constructor).
  - destruct (follow_returns app f e) as (evs & app1 & Hr & Hp & _).
    by rewrite !(handle_plain _ _ _ _ _ fn_handle_follow_account evs app1).
  - destruct (handle_block_account n rnd d app b a)
      as (evs & app1 & Hb & [[-> Hh]|Hh]).
    + by rewrite !Hh.
    + destruct Hh as (blocker & evs2 & app2 & Hg & -> & Hr & Hp & _ & Hh).
      rewrite Hh.
      destruct (handle_block_account 0 rnd d app b a)
        as (evs' & app1' & Hb' & [[-> _]|Hh']); [congruence|].
      destruct Hh' as (blocker' & evs2' & app2' & Hg' & -> & Hr' & _ & _ & Hh').
      rewrite Hh'. congruence.
  - destruct (remove_returns app f e) as (evs & app1 & Hr & Hp & _).
    by rewrite !(handle_plain _ _ _ _ _ fn_handle_remove_follower evs app1).
  - reflexivity.
Qed.

Lemma handle_fuel_1 rnd d app cmd :
  handle 1 rnd d app cmd = OutOfFuel ∨
  handle 1 rnd d app cmd = handle 2 rnd d app cmd.
Proof.
  destruct cmd as [e u|f e|b a|f e|cls].
  - right. destruct (register_returns rnd app e u) as (ev & app1 & Hr & Hp).
    by rewrite !(handle_plain _ _ _ _ _ fn_handle_register_account [ev] app1)
      by (done || by repeat constructor).
  - right. destruct (follow_returns app f e) as (evs & app1 & Hr & Hp & _).
    by rewrite !(handle_plain _ _ _ _ _ fn_handle_follow_account evs app1).
  - destruct (handle_block_account 0 rnd d app b a)
      as (evs & app1 & Hb & [[-> Hh]|Hh]).
    + right. by rewrite !Hh.
    + left. by destruct Hh as (? & ? & ? & _ & _ & _ & _ & Hh & _).
  - right. destruct (remove_returns app f e) as (evs & app1 & Hr & Hp & _).
    by rewrite !(handle_plain _ _ _ _ _ fn_handle_remove_follower evs app1).
  - by right.
Qed.

(** Whatever [handle] yields with some fuel, it yields with fuel 2. *)
Lemma handle_fuel fuel rnd d app cmd :
  handle fuel rnd d app cmd = OutOfFuel ∨
  handle fuel rnd d app cmd = handle 2 rnd d app cmd.
Proof.
  destruct fuel as [|[|n]].
  - by left.
  - apply handle_fuel_1.
  - right. apply handle_fuel_2.
Qed.

(** *** Reading a log *)

Lemma published_at_publish_log d events :
  published_at d (publish_log d events) = events.
Proof.
  induction events as [|ev events IH]; [done|].
  unfold published_at, publish_log in *. cbn [flat_map].
  rewrite <- app_comm_cons. cbn [omap list_omap]. rewrite decide_True by done.
  rewrite omap_app, IH. f_equal.
  induction (subscribers_of Application_bus ev); [done|]. simpl. done.
Qed.

Lemma published_at_other d d' events :
  d' ≠ d → published_at d (publish_log d' events) = [].
Proof.
  intros Hne. induction events as [|ev events IH]; [done|].
  unfold published_at, publish_log in *. cbn [flat_map].
  rewrite <- app_comm_cons. cbn [omap list_omap]. rewrite decide_False by done.
  rewrite omap_app, IH, app_nil_r.
  induction (subscribers_of Application_bus ev); [done|]. simpl. done.
Qed.

Lemma published_below_deeper d d' events :
  d < d' → published_below d (publish_log d' events) = events.
Proof.
  intros Hlt. induction events as [|ev events IH]; [done|].
  unfold published_below, publish_log in *. cbn [flat_map].
  rewrite <- app_comm_cons. cbn [omap list_omap]. rewrite decide_True by done.
  rewrite omap_app, IH. f_equal.
  induction (subscribers_of Application_bus ev); [done|]. simpl. done.
Qed.

Lemma published_below_same d events :
  published_below d (publish_log d events) = [].
Proof.
  induction events as [|ev events IH]; [done|].
  unfold published_below, publish_log in *. cbn [flat_map].
  rewrite <- app_comm_cons. cbn [omap list_omap]. rewrite decide_False by lia.
  rewrite omap_app, IH, app_nil_r.
  induction (subscribers_of Application_bus ev); [done|]. simpl. done.
Qed.

Lemma handle_depths_publish_log d events :
  handle_depths (publish_log d events) = [].
Proof.
  induction events as [|ev events IH]; [done|].
  unfold handle_depths, publish_log in *. cbn [flat_map].
  rewrite <- app_comm_cons. cbn [omap list_omap].
  rewrite omap_app, IH, app_nil_r.
  induction (subscribers_of Application_bus ev); [done|]. simpl. done.
Qed.

Lemma nested_handles_publish_log d events :
  nested_handles (publish_log d events) = [].
Proof.
  induction events as [|ev events IH]; [done|].
  unfold nested_handles, publish_log in *. cbn [flat_map].
  rewrite <- app_comm_cons. cbn [omap list_omap].
  rewrite omap_app, IH, app_nil_r.
  induction (subscribers_of Application_bus ev); [done|]. simpl. done.
Qed.

(** *** A [handle] call on a command that has a handler *)

Lemma handlers_registered cmd handler :
  dict_get Application_handlers (type_of_command cmd) = Some handler →
  match cmd with
  | RegisterAccount _ _ => handler = fn_handle_register_account
  | FollowAccount _ _ => handler = fn_handle_follow_account
  | BlockAccount _ _ => handler = fn_handle_block_account
  | RemoveFollower _ _ => handler = fn_handle_remove_follower
  | OtherCommand _ => False
  end.
Proof. destruct cmd; simpl; congruence. Qed.

Lemma handle_registered n rnd d app cmd handler :
  dict_get Application_handlers (type_of_command cmd) = Some handler →
  ∃ events app1 app2 log,
    call_handler handler rnd app cmd = Returned events app1 [] ∧
    (length events ≤ 1)%nat ∧
    handle (S (S n)) rnd d app cmd = Returned events app2 log ∧
    log_shape d cmd events log.
Proof.
  intros Hh. pose proof (handlers_registered _ _ Hh) as Hk.
  destruct cmd as [e u|f e|b a|f e|cls]; [subst handler; cbn [call_handler]..|done].
  - destruct (register_returns rnd app e u) as (ev & app1 & Hr & Hp).
    exists [ev], app1. do 2 eexists. split_and!; [done|simpl; lia| |].
    + eapply handle_plain; [done|done|by repeat constructor].
    + constructor. by repeat constructor.
  - destruct (follow_returns app f e) as (evs & app1 & Hr & Hp & Hl).
    exists evs, app1. do 2 eexists. split_and!; [done|done| |].
    + by eapply handle_plain.
    + by constructor.
  - destruct (handle_block_account n rnd d app b a)
      as (evs & app1 & Hb & [[-> Hr]|Hr]).
    + exists [], app1. do 2 eexists. split_and!; [done|simpl; lia|apply Hr|].
      by constructor.
    + destruct Hr as (blocker & evs2 & app2 & Hg & -> & Hr & Hp & _ & Hr').
      eexists _, app1. do 2 eexists. split_and!; [done|simpl; lia|apply Hr'|].
      eapply shape_cascade; [done|]. by eapply remove_returns_removed.
  - destruct (remove_returns app f e) as (evs & app1 & Hr & Hp & Hl).
    exists evs, app1. do 2 eexists. split_and!; [done|done| |].
    + by eapply handle_plain.
    + by constructor.
Qed.

Lemma handle_unregistered n rnd d app cmd :
  dict_get Application_handlers (type_of_command cmd) = None →
  handle (S n) rnd d app cmd =
  Raised (ValueError ("No handler for " +:+ type_name (type_of_command cmd)))
    app [call_handle d cmd].
Proof. intros Hh. by rewrite handle_S, Hh. Qed.

(** What the two shapes of a log show. *)

Lemma log_shape_depths d cmd events log :
  log_shape d cmd events log →
  handle_depths log = [d] ∨ handle_depths log = [d; S d].
Proof.
  destruct 1 as [Hp|b a events2 -> Hev2]; unfold handle_depths;
    cbn [omap list_omap]; fold (handle_depths);
    rewrite handle_depths_publish_log; eauto.
Qed.

Lemma log_shape_nested cmd events log :
  log_shape 0 cmd events log →
  nested_handles log = [] ∨ ∃ f e, nested_handles log = [RemoveFollower f e].
Proof.
  destruct 1 as [Hp|b a events2 -> Hev2]; unfold nested_handles;
    cbn [omap list_omap]; fold (nested_handles);
    rewrite nested_handles_publish_log; eauto.
Qed.

Lemma log_shape_published d cmd events log :
  log_shape d cmd events log → published_at d log = events.
Proof.
  destruct 1 as [Hp|b a events2 -> Hev2]; unfold published_at;
    cbn [omap list_omap]; fold (published_at d).
  - apply published_at_publish_log.
  - rewrite decide_True by done.
    fold (published_at d (publish_log (S d) events2)).
    by rewrite published_at_other by lia.
Qed.

Lemma log_shape_published_below d cmd events log :
  log_shape d cmd events log →
  Forall (λ ev, ev ∉ events) (published_below d log).
Proof.
  destruct 1 as [Hp|b a events2 -> Hev2]; unfold published_below;
    cbn [omap list_omap]; fold (published_below d).
  - fold (published_below d (publish_log d events)).
    rewrite published_below_same. constructor.
  - rewrite decide_False by lia.
    fold (published_below d (publish_log (S d) events2)).
    rewrite published_below_deeper by lia.
    destruct Hev2 as [->| ->]; repeat constructor.
    intros Hin. apply list_elem_of_singleton in Hin. discriminate.
Qed.

(** ** Length of the event lists (C9) *)

(** C9. Whatever handler the table holds for a command returns, and returns
    at most one event; [handle] returns that same list. *)
Theorem handlers_emit_at_most_one (rnd : string) (app : Application)
  (cmd : Command) (handler : HandlerFn) (n : nat) :
  dict_get Application_handlers (type_of_command cmd) = Some handler →
  ∃ events app1 app2 log,
    call_handler handler rnd app cmd = Returned events app1 [] ∧
    handle (S (S n)) rnd 0 app cmd = Returned events app2 log ∧
    (length events ≤ 1)%nat.
Proof.
  intros Hh.
  destruct (handle_registered n rnd 0 app cmd handler Hh)
    as (events & app1 & app2 & log & Hc & Hl & Hr & _).
  by exists events, app1, app2, log.
Qed.

Lemma handlers_emit_at_most_one_witness :
  dict_get Application_handlers
    (type_of_command (FollowAccount (mkAccountId "a") (mkAccountId "b"))) =
    Some fn_handle_follow_account ∧
  ∃ events app1 app2 log,
    call_handler fn_handle_follow_account "" initial
      (FollowAccount (mkAccountId "a") (mkAccountId "b")) =
      Returned events app1 [] ∧
    handle 2 "" 0 initial (FollowAccount (mkAccountId "a") (mkAccountId "b")) =
      Returned events app2 log ∧
    (length events ≤ 1)%nat.
Proof.
  split; [reflexivity|].
  apply (handlers_emit_at_most_one "" initial
           (FollowAccount (mkAccountId "a") (mkAccountId "b"))
           fn_handle_follow_account 0).
  reflexivity.
Defined.

(** ** Termination (C10) *)

(** C10. With fuel for two nested calls [handle] returns or raises on every
    command in every state, and more fuel changes nothing: no [handle] call
    is nested deeper than one level, at most one is nested at all, and it
    handles a [RemoveFollower]. The policy is subscribed to [AccountBlocked]
    only, and [FollowerRemoved] has the projector as its only subscriber. *)
Theorem handle_terminates (rnd : string) (app : Application) (cmd : Command)
  (n : nat) :
  handle (S (S n)) rnd 0 app cmd ≠ OutOfFuel ∧
  handle (S (S n)) rnd 0 app cmd = handle 2 rnd 0 app cmd ∧
  Forall (λ d, d ≤ 1)%nat (handle_depths (log_of (handle (S (S n)) rnd 0 app cmd))) ∧
  (length (nested_handles (log_of (handle (S (S n)) rnd 0 app cmd))) ≤ 1)%nat ∧
  Forall is_remove_follower
    (nested_handles (log_of (handle (S (S n)) rnd 0 app cmd))) ∧
  (∀ t, fn_on_account_blocked ∈ default [] (dict_get (subscribers Application_bus) t)
        ↔ t = TAccountBlocked) ∧
  dict_get (subscribers Application_bus) TFollowerRemoved = Some [fn_project].
Proof.
  split; [|split; [apply handle_fuel_2|]].
  { destruct (dict_get Application_handlers (type_of_command cmd)) as [h|] eqn:Hh.
    - destruct (handle_registered n rnd 0 app cmd h Hh)
        as (events & app1 & app2 & log & _ & _ & -> & _). done.
    - by rewrite handle_unregistered. }
  assert (∃ log, log_of (handle (S (S n)) rnd 0 app cmd) = log ∧
                 (log = [call_handle 0 cmd] ∨ ∃ events, log_shape 0 cmd events log))
    as (log & -> & Hlog).
  { destruct (dict_get Application_handlers (type_of_command cmd)) as [h|] eqn:Hh.
    - destruct (handle_registered n rnd 0 app cmd h Hh)
        as (events & app1 & app2 & log & _ & _ & -> & Hs). eauto.
    - rewrite handle_unregistered by done. eauto. }
  split_and!.
  - destruct Hlog as [->|[events Hs]]; [by repeat constructor|].
    destruct (log_shape_depths _ _ _ _ Hs) as [-> | ->]; repeat constructor.
  - destruct Hlog as [->|[events Hs]]; [simpl; lia|].
    destruct (log_shape_nested _ _ _ Hs) as [-> |(f & e & ->)]; simpl; lia.
  - destruct Hlog as [->|[events Hs]]; [constructor|].
    destruct (log_shape_nested _ _ _ Hs) as [-> |(f & e & ->)];
      by repeat constructor.
  - intros t. destruct t; simpl; split; intros H; try done;
      try (by apply list_elem_of_here);
      repeat match goal with
             | H : _ ∈ [] |- _ => by apply not_elem_of_nil in H
             | H : _ ∈ _ :: _ |- _ => apply elem_of_cons in H as [?|H]; [done|]
             end.
  - reflexivity.
Qed.

(** ** The entry point (C6) *)

(** C6. A command whose class has no handler makes [handle] raise
    [ValueError] and changes nothing. Otherwise [handle] returns the very
    list its handler returned; the events it published itself are that list,
    in order; and no event published by a nested [handle] call is in it. *)
Theorem handle_dispatches (rnd : string) (app : Application) (cmd : Command)
  (n : nat) :
  match dict_get Application_handlers (type_of_command cmd) with
  | None =>
      handle (S n) rnd 0 app cmd =
      Raised (ValueError ("No handler for " +:+ type_name (type_of_command cmd)))
        app [call_handle 0 cmd]
  | Some handler =>
      ∃ events app1 app2 log,
        call_handler handler rnd app cmd = Returned events app1 [] ∧
        handle (S (S n)) rnd 0 app cmd = Returned events app2 log ∧
        head log = Some (call_handle 0 cmd) ∧
        published_at 0 log = events ∧
        Forall (λ ev, ev ∉ events) (published_below 0 log)
  end.
Proof.
  destruct (dict_get Application_handlers (type_of_command cmd)) as [h|] eqn:Hh.
  - destruct (handle_registered n rnd 0 app cmd h Hh)
      as (events & app1 & app2 & log & Hc & _ & Hr & Hs).
    exists events, app1, app2, log. split_and!; [done|done| | |].
    + by destruct Hs.
    + by eapply log_shape_published.
    + by eapply log_shape_published_below.
  - by apply handle_unregistered.
Qed.

(** ** What the handlers return *)

Lemma AccountId_value_inj (x y : AccountId) :
  AccountId_value x = AccountId_value y → x = y.
Proof. destruct x, y; simpl; congruence. Qed.

Lemma register_duplicate rnd app e u :
  truthy (get_by_email (accounts app) e)
  || truthy (get_by_username (accounts app) u) = true →
  _handle_register_account rnd app (RegisterAccount e u) =
  Returned [AccountAlreadyExists (Some e) (Some u) "Duplicate email or username"]
    app [].
Proof. intros H. unfold _handle_register_account. by rewrite H. Qed.

Lemma register_new rnd app e u :
  truthy (get_by_email (accounts app) e)
  || truthy (get_by_username (accounts app) u) = false →
  _handle_register_account rnd app (RegisterAccount e u) =
  Returned [AccountRegistered (mkAccountId rnd) e u]
    (with_accounts app (save (accounts app) (mkAccount (mkAccountId rnd) e u ∅)))
    [].
Proof. intros H. unfold _handle_register_account. by rewrite H. Qed.

Lemma follow_self app x :
  _handle_follow_account app (FollowAccount x x) =
  Returned [FollowRejectedBlocked x x "Cannot follow self"] app [].
Proof. unfold _handle_follow_account. by rewrite decide_True. Qed.

Lemma follow_unknown app f e :
  f ≠ e →
  repo_get (accounts app) f = None ∨ repo_get (accounts app) e = None →
  _handle_follow_account app (FollowAccount f e) =
  Returned [FollowRejectedBlocked f e "Unknown accounts"] app [].
Proof.
  intros Hne Hno. unfold _handle_follow_account. rewrite decide_False by done.
  destruct Hno as [-> | ->]; [done|]. by destruct (repo_get _ f).
Qed.

Lemma follow_blocked app f e af ae :
  f ≠ e →
  repo_get (accounts app) f = Some af →
  repo_get (accounts app) e = Some ae →
  e ∈ acc_blocked af ∨ f ∈ acc_blocked ae →
  _handle_follow_account app (FollowAccount f e) =
  Returned [FollowRejectedBlocked f e "Blocked relationship"] app [].
Proof.
  intros Hne Hf He Hb. unfold _handle_follow_account.
  rewrite decide_False, Hf, He by done.
  destruct Hb as [Hb|Hb].
  - by rewrite (bool_decide_eq_true_2 _ Hb).
  - rewrite (bool_decide_eq_true_2 _ Hb). by rewrite orb_true_r.
Qed.

Lemma follow_present app f e af ae :
  f ≠ e →
  repo_get (accounts app) f = Some af →
  repo_get (accounts app) e = Some ae →
  e ∉ acc_blocked af → f ∉ acc_blocked ae →
  edge app f e →
  _handle_follow_account app (FollowAccount f e) = Returned [] app [].
Proof.
  intros Hne Hf He Hb1 Hb2 Hedge. unfold _handle_follow_account.
  rewrite decide_False, Hf, He by done.
  rewrite (bool_decide_eq_false_2 _ Hb1), (bool_decide_eq_false_2 _ Hb2).
  cbn [orb]. rewrite follow_exists_present by done.
  by destruct app.
Qed.

Lemma follow_new app f e af ae :
  f ≠ e →
  repo_get (accounts app) f = Some af →
  repo_get (accounts app) e = Some ae →
  e ∉ acc_blocked af → f ∉ acc_blocked ae →
  ¬ edge app f e →
  _handle_follow_account app (FollowAccount f e) =
  Returned [AccountFollowed f e]
    (with_follows app
       (follow_add (follow_exists (follows app) f e).2 f e)) [].
Proof.
  intros Hne Hf He Hb1 Hb2 Hedge. unfold _handle_follow_account.
  rewrite decide_False, Hf, He by done.
  rewrite (bool_decide_eq_false_2 _ Hb1), (bool_decide_eq_false_2 _ Hb2).
  cbn [orb]. destruct (follow_exists (follows app) f e) as [present r] eqn:Hx.
  assert (present = false) as ->; [|done].
  change present with (present, r).1. rewrite <- Hx, follow_exists_fst.
  by apply bool_decide_eq_false_2.
Qed.

Lemma remove_absent app f e :
  ¬ edge app f e →
  _handle_remove_follower app (RemoveFollower f e) =
  Returned [] (with_follows app (follow_exists (follows app) f e).2) [].
Proof.
  intros Hedge. unfold _handle_remove_follower.
  destruct (follow_exists (follows app) f e) as [present r] eqn:Hx.
  assert (present = false) as ->; [|done].
  change present with (present, r).1. rewrite <- Hx, follow_exists_fst.
  by apply bool_decide_eq_false_2.
Qed.

Lemma remove_present app f e :
  edge app f e →
  _handle_remove_follower app (RemoveFollower f e) =
  Returned [FollowerRemoved f e "Blocked"]
    (with_follows app (follow_remove (follows app) f e)) [].
Proof.
  intros Hedge. unfold _handle_remove_follower.
  by rewrite follow_exists_present.
Qed.

Lemma block_self app x :
  _handle_block_account app (BlockAccount x x) = Returned [] app [].
Proof. unfold _handle_block_account. by rewrite decide_True. Qed.

Lemma block_unknown app b a :
  repo_get (accounts app) b = None ∨ repo_get (accounts app) a = None →
  _handle_block_account app (BlockAccount b a) = Returned [] app [].
Proof.
  intros Hno. unfold _handle_block_account. case_decide; [done|].
  destruct Hno as [-> | ->]; [done|]. by destruct (repo_get _ b).
Qed.

Lemma Account_block_eq self other :
  Account_block self other = (blocking self other, AccountBlocked (acc_id self) other).
Proof.
  unfold Account_block, blocking. case_decide as Hin; [|done].
  f_equal. destruct self as [i e u bl]. simpl in *. f_equal. set_solver.
Qed.

Lemma block_known app b a blocker blocked :
  b ≠ a →
  repo_get (accounts app) b = Some blocker →
  repo_get (accounts app) a = Some blocked →
  _handle_block_account app (BlockAccount b a) =
  Returned [AccountBlocked (acc_id blocker) a]
    (with_accounts app
       (save (mutated (accounts app) b (blocking blocker a)) (blocking blocker a)))
    [].
Proof.
  intros Hne Hb Ha. unfold _handle_block_account.
  rewrite decide_False, Hb, Ha by done. by rewrite Account_block_eq.
Qed.

(** ** The account repository stays well indexed *)

Lemma accounts_wf_init : accounts_wf InMemoryAccountRepo_init.
Proof. split; intros ??; simpl; by rewrite lookup_empty. Qed.

Lemma Email_value_inj (x y : Email) : Email_value x = Email_value y → x = y.
Proof. destruct x, y; simpl; congruence. Qed.

Lemma Username_value_inj (x y : Username) :
  Username_value x = Username_value y → x = y.
Proof. destruct x, y; simpl; congruence. Qed.

Lemma str_truthy_ne (s : string) : s ≠ "" → str_truthy s = true.
Proof. by destruct s. Qed.

Lemma get_by_email_wf r e :
  accounts_wf r →
  truthy (get_by_email r e) = true ↔
  ∃ k acc, by_id r !! k = Some acc ∧ acc_email acc = e.
Proof.
  intros Hwf. unfold get_by_email, get_indexed. split.
  - destruct (by_email r !! Email_value e) as [k|] eqn:Hk; [|done].
    destruct (wf_email r Hwf _ _ Hk) as (acc & Hacc & He).
    intros _. exists k, acc. split; [done|]. by apply Email_value_inj.
  - intros (k & acc & Hacc & <-).
    destruct (wf_key r Hwf _ _ Hacc) as (_ & Hne & -> & _).
    by rewrite str_truthy_ne, Hacc.
Qed.

Lemma get_by_username_wf r u :
  accounts_wf r →
  truthy (get_by_username r u) = true ↔
  ∃ k acc, by_id r !! k = Some acc ∧ acc_username acc = u.
Proof.
  intros Hwf. unfold get_by_username, get_indexed. split.
  - destruct (by_username r !! Username_value u) as [k|] eqn:Hk; [|done].
    destruct (wf_username r Hwf _ _ Hk) as (acc & Hacc & He).
    intros _. exists k, acc. split; [done|]. by apply Username_value_inj.
  - intros (k & acc & Hacc & <-).
    destruct (wf_key r Hwf _ _ Hacc) as (_ & Hne & _ & ->).
    by rewrite str_truthy_ne, Hacc.
Qed.

Lemma accounts_wf_save_new r rnd e u :
  accounts_wf r →
  rnd ≠ "" → by_id r !! rnd = None →
  truthy (get_by_email r e) || truthy (get_by_username r u) = false →
  accounts_wf (save r (mkAccount (mkAccountId rnd) e u ∅)).
Proof.
  intros Hwf Hne Hfresh Hdup. apply orb_false_elim in Hdup as [He Hu].
  assert (∀ k acc, by_id r !! k = Some acc → acc_email acc ≠ e) as Hemail.
  { intros k acc Hacc Heq.
    assert (truthy (get_by_email r e) = true) as Ht
      by (apply get_by_email_wf; eauto).
    congruence. }
  assert (∀ k acc, by_id r !! k = Some acc → acc_username acc ≠ u) as Huser.
  { intros k acc Hacc Heq.
    assert (truthy (get_by_username r u) = true) as Ht
      by (apply get_by_username_wf; eauto).
    congruence. }
  split; unfold save; simpl.
  - intros k acc Hacc. destruct (decide (rnd = k)) as [<-|Hk].
    + rewrite lookup_insert_eq in Hacc. simplify_eq. simpl.
      by rewrite !lookup_insert_eq.
    + rewrite lookup_insert_ne in Hacc by done.
      destruct (wf_key r Hwf _ _ Hacc) as (Hid & Hk' & Hem & Hun).
      split_and!; [done|done| |].
      * rewrite lookup_insert_ne; [done|].
        intros Heq. apply Email_value_inj in Heq. by eapply Hemail.
      * rewrite lookup_insert_ne; [done|].
        intros Heq. apply Username_value_inj in Heq. by eapply Huser.
  - intros e' k Hk. destruct (decide (Email_value e = e')) as [<-|He'].
    + rewrite lookup_insert_eq in Hk. simplify_eq.
      eexists. by rewrite lookup_insert_eq.
    + rewrite lookup_insert_ne in Hk by done.
      destruct (wf_email r Hwf _ _ Hk) as (acc & Hacc & Heq).
      exists acc. split; [|done]. rewrite lookup_insert_ne; [done|congruence].
  - intros u' k Hk. destruct (decide (Username_value u = u')) as [<-|Hu'].
    + rewrite lookup_insert_eq in Hk. simplify_eq.
      eexists. by rewrite lookup_insert_eq.
    + rewrite lookup_insert_ne in Hk by done.
      destruct (wf_username r Hwf _ _ Hk) as (acc & Hacc & Heq).
      exists acc. split; [|done]. rewrite lookup_insert_ne; [done|congruence].
Qed.

(** In a well indexed repository, saving the blocker again rewrites the
    entry [block] has mutated and nothing else. *)
Lemma save_blocking r b blocker a :
  accounts_wf r →
  repo_get r b = Some blocker →
  save (mutated r b (blocking blocker a)) (blocking blocker a) =
  mkAccountRepo (<[AccountId_value b := blocking blocker a]> (by_id r))
    (by_email r) (by_username r).
Proof.
  intros Hwf Hb. destruct (wf_key r Hwf _ _ Hb) as (Hid & _ & Hem & Hun).
  unfold save, mutated. simpl. rewrite Hid, insert_insert_eq.
  by rewrite (insert_id _ _ _ Hem), (insert_id _ _ _ Hun).
Qed.

Lemma accounts_wf_blocking r b blocker a :
  accounts_wf r →
  repo_get r b = Some blocker →
  accounts_wf (mkAccountRepo (<[AccountId_value b := blocking blocker a]> (by_id r))
                 (by_email r) (by_username r)).
Proof.
  intros Hwf Hb. split; simpl.
  - intros k acc Hacc. destruct (decide (AccountId_value b = k)) as [<-|Hk].
    + rewrite lookup_insert_eq in Hacc. simplify_eq. simpl.
      by apply (wf_key r Hwf).
    + rewrite lookup_insert_ne in Hacc by done. by apply (wf_key r Hwf).
  - intros e k Hk. destruct (wf_email r Hwf _ _ Hk) as (acc & Hacc & Heq).
    destruct (decide (AccountId_value b = k)) as [<-|Hne].
    + rewrite lookup_insert_eq. eexists. split; [done|]. simpl.
      unfold repo_get in Hb. congruence.
    + rewrite lookup_insert_ne by done. eauto.
  - intros u k Hk. destruct (wf_username r Hwf _ _ Hk) as (acc & Hacc & Heq).
    destruct (decide (AccountId_value b = k)) as [<-|Hne].
    + rewrite lookup_insert_eq. eexists. split; [done|]. simpl.
      unfold repo_get in Hb. congruence.
    + rewrite lookup_insert_ne by done. eauto.
Qed.

(** ** The invariant of the reachable states *)

Lemma index_consistent_looked_up r f e :
  index_consistent r → index_consistent (follow_exists r f e).2.
Proof. intros H x y. simpl. rewrite dd_get_touch. apply H. Qed.

Lemma index_consistent_added r f e :
  index_consistent r →
  index_consistent
    (mkFollowRepo
       (dd_add (dd_touch (following r) (AccountId_value f))
          (AccountId_value f) (AccountId_value e))
       (dd_add (followers r) (AccountId_value e) (AccountId_value f))).
Proof.
  intros H x y. simpl. rewrite !dd_get_add, !dd_get_touch.
  specialize (H x y). repeat case_decide; subst;
    rewrite ?elem_of_union, ?elem_of_singleton; naive_solver.
Qed.

Lemma index_consistent_removed r f e :
  index_consistent r → index_consistent (follow_remove r f e).
Proof.
  intros H x y. simpl. rewrite !dd_get_discard.
  specialize (H x y). repeat case_decide; subst;
    rewrite ?elem_of_difference, ?elem_of_singleton; naive_solver.
Qed.

Lemma app_inv_initial : app_inv initial.
Proof.
  split.
  - apply accounts_wf_init.
  - intros x y. unfold dd_get. simpl. rewrite !lookup_empty. set_solver.
  - intros x. by unfold dd_get; simpl; rewrite !lookup_empty.
  - intros x. unfold edge, dd_get. simpl. rewrite lookup_empty. set_solver.
  - intros f e acc. unfold edge, dd_get. simpl. rewrite lookup_empty. set_solver.
Qed.

(** The subscript of [exists] changes nothing that is observed. *)
Lemma app_inv_looked_up app f e :
  app_inv app → app_inv (with_follows app (follow_exists (follows app) f e).2).
Proof.
  intros [Hacc Hidx Hread Hloop Hblk]. split.
  - done.
  - by apply index_consistent_looked_up.
  - intros x. destruct (Hread x) as [H1 H2]. simpl.
    by rewrite dd_get_touch.
  - intros x. unfold edge. simpl. rewrite dd_get_touch. apply Hloop.
  - intros x y acc. unfold edge. simpl. rewrite dd_get_touch. apply Hblk.
Qed.

Lemma follow_add_new r f e :
  AccountId_value e ∉ dd_get (following r) (AccountId_value f) →
  follow_add (follow_exists r f e).2 f e =
  mkFollowRepo
    (dd_add (dd_touch (following r) (AccountId_value f))
       (AccountId_value f) (AccountId_value e))
    (dd_add (followers r) (AccountId_value e) (AccountId_value f)).
Proof.
  intros Hno. unfold follow_add.
  destruct (follow_exists (follow_exists r f e).2 f e) as [present r'] eqn:Hx.
  assert (present = false) as ->.
  { change present with (present, r').1. rewrite <- Hx, follow_exists_fst.
    apply bool_decide_eq_false_2. simpl. by rewrite dd_get_touch. }
  assert (r' = (follow_exists r f e).2) as ->.
  { change r' with (false, r').2. rewrite <- Hx. unfold follow_exists. simpl.
    by rewrite dd_touch_idem. }
  done.
Qed.

Lemma app_inv_registered app rnd e u :
  app_inv app → fresh_uuid app rnd →
  truthy (get_by_email (accounts app) e)
  || truthy (get_by_username (accounts app) u) = false →
  app_inv (with_accounts app (save (accounts app) (mkAccount (mkAccountId rnd) e u ∅))).
Proof.
  intros [Hacc Hidx Hread Hloop Hblk] [Hne Hfresh] Hdup. split.
  - by apply accounts_wf_save_new.
  - done.
  - done.
  - done.
  - intros x y acc Hedge Hy. unfold repo_get, save in Hy. simpl in Hy.
    destruct (decide (rnd = AccountId_value y)) as [Heq|Hk].
    + rewrite Heq, lookup_insert_eq in Hy. simplify_eq. simpl. set_solver.
    + rewrite lookup_insert_ne in Hy by done. by eapply Hblk.
Qed.

Lemma app_inv_followed app f e ae :
  app_inv app →
  f ≠ e →
  repo_get (accounts app) e = Some ae → f ∉ acc_blocked ae →
  ¬ edge app f e →
  app_inv (_project
             (with_follows app (follow_add (follow_exists (follows app) f e).2 f e))
             (AccountFollowed f e)).
Proof.
  intros [Hacc Hidx Hread Hloop Hblk] Hne He Hnb Hedge.
  rewrite follow_add_new by done. split.
  - done.
  - by apply index_consistent_added.
  - intros x. destruct (Hread x) as [H1 H2]. simpl.
    rewrite !dd_get_add, !dd_get_touch.
    split; case_decide; congruence.
  - intros x. unfold edge. simpl. rewrite dd_get_add, !dd_get_touch.
    case_decide as Hx; [|apply Hloop].
    rewrite elem_of_union, elem_of_singleton. intros [Heq|Hin].
    + apply Hne. apply AccountId_value_inj. congruence.
    + apply (Hloop x). unfold edge. by rewrite <- Hx at 2.
  - intros x y acc. unfold edge. simpl. rewrite dd_get_add, !dd_get_touch.
    intros Hin Hy. case_decide as Hx; [|by eapply Hblk].
    apply elem_of_union in Hin as [Heq|Hin];
      [|eapply Hblk; [|done]; unfold edge; by rewrite <- Hx].
    apply elem_of_singleton in Heq.
    apply AccountId_value_inj in Heq, Hx. subst x y. congruence.
Qed.

Lemma app_inv_removed app f e reason :
  app_inv app →
  app_inv (_project (with_follows app (follow_remove (follows app) f e))
             (FollowerRemoved f e reason)).
Proof.
  intros [Hacc Hidx Hread Hloop Hblk]. split.
  - done.
  - by apply index_consistent_removed.
  - intros x. destruct (Hread x) as [H1 H2]. simpl.
    rewrite !dd_get_discard. split; case_decide; congruence.
  - intros x. unfold edge. simpl. rewrite dd_get_discard.
    case_decide as Hx; [|apply Hloop].
    rewrite elem_of_difference. intros [Hin _]. apply (Hloop x).
    unfold edge. by rewrite <- Hx at 2.
  - intros x y acc. unfold edge. simpl. rewrite dd_get_discard.
    intros Hin Hy. eapply Hblk; [|done]. unfold edge.
    case_decide as Hx; [|done]. apply elem_of_difference in Hin as [Hin _].
    by rewrite <- Hx.
Qed.

Lemma repo_get_id r x acc :
  accounts_wf r → repo_get r x = Some acc → acc_id acc = x.
Proof.
  intros Hwf Hx. destruct (wf_key r Hwf _ _ Hx) as (Hid & _).
  by apply AccountId_value_inj.
Qed.

Lemma app_inv_blocked app b a blocker :
  app_inv app →
  repo_get (accounts app) b = Some blocker →
  app_inv_but a b
    (with_accounts app
       (save (mutated (accounts app) b (blocking blocker a)) (blocking blocker a))).
Proof.
  intros [Hacc Hidx Hread Hloop Hblk] Hb. rewrite save_blocking by done. split.
  - by apply accounts_wf_blocking.
  - done.
  - done.
  - done.
  - intros x y acc Hedge Hy Hin. unfold repo_get in Hy. simpl in Hy.
    destruct (decide (AccountId_value b = AccountId_value y)) as [Heq|Hk].
    + rewrite Heq, lookup_insert_eq in Hy. simplify_eq. simpl in Hin.
      apply AccountId_value_inj in Heq. subst y.
      apply elem_of_union in Hin as [Hin|Hin].
      * apply elem_of_singleton in Hin. done.
      * by destruct (Hblk x b blocker).
    + rewrite lookup_insert_ne in Hy by done. by destruct (Hblk x y acc).
Qed.

Lemma app_inv_but_removed a b app reason :
  app_inv_but a b app →
  app_inv (_project (with_follows app (follow_remove (follows app) a b))
             (FollowerRemoved a b reason)).
Proof.
  intros [Hacc Hidx Hread Hloop Hblk]. split.
  - done.
  - by apply index_consistent_removed.
  - intros x. destruct (Hread x) as [H1 H2]. simpl.
    rewrite !dd_get_discard. split; case_decide; congruence.
  - intros x. unfold edge. simpl. rewrite dd_get_discard.
    case_decide as Hx; [|apply Hloop].
    rewrite elem_of_difference. intros [Hin _]. apply (Hloop x).
    unfold edge. by rewrite <- Hx at 2.
  - intros x y acc. unfold edge. simpl. rewrite dd_get_discard.
    intros Hin Hy Hbl. case_decide as Hx.
    + apply elem_of_difference in Hin as [Hin Hne].
      destruct (Hblk x y acc) as [_ ->]; [unfold edge; by rewrite <- Hx|done..|].
      by apply Hne, elem_of_singleton.
    + destruct (Hblk x y acc) as [-> _]; done.
Qed.

Lemma app_inv_but_absent a b app :
  app_inv_but a b app → ¬ edge app a b →
  app_inv (with_follows app (follow_exists (follows app) a b).2).
Proof.
  intros [Hacc Hidx Hread Hloop Hblk] Hno. split.
  - done.
  - by apply index_consistent_looked_up.
  - intros x. destruct (Hread x) as [H1 H2]. simpl. by rewrite dd_get_touch.
  - intros x. unfold edge. simpl. rewrite dd_get_touch. apply Hloop.
  - intros x y acc. unfold edge. simpl. rewrite dd_get_touch.
    intros Hin Hy Hbl. destruct (Hblk x y acc) as [-> ->]; done.
Qed.

(** Rewrites a [handle] call whose handler returns events without policy,
    [tac] proving what the handler returns. *)
Ltac handle_plainly tac :=
  erewrite handle_plain; [|reflexivity|tac|by repeat constructor].

(** [handle] keeps the invariant, whatever the command. *)
Lemma handle_preserves_inv rnd app cmd :
  app_inv app → fresh_uuid app rnd →
  holds_after app_inv (handle 2 rnd 0 app cmd).
Proof.
  intros Hinv Hfresh. destruct cmd as [e u|f e|b a|f e|cls].
  - destruct (truthy (get_by_email (accounts app) e)
              || truthy (get_by_username (accounts app) u)) eqn:Hdup.
    + handle_plainly ltac:(by apply register_duplicate). done.
    + handle_plainly ltac:(by apply register_new).
      by apply app_inv_registered.
  - destruct (decide (f = e)) as [->|Hne].
    { handle_plainly ltac:(apply follow_self). done. }
    destruct (repo_get (accounts app) f) as [af|] eqn:Hf; cycle 1.
    { handle_plainly ltac:(apply follow_unknown; eauto). done. }
    destruct (repo_get (accounts app) e) as [ae|] eqn:He; cycle 1.
    { handle_plainly ltac:(apply follow_unknown; eauto). done. }
    destruct (decide (e ∈ acc_blocked af)) as [Hb1|Hb1].
    { handle_plainly ltac:(eapply follow_blocked; eauto). done. }
    destruct (decide (f ∈ acc_blocked ae)) as [Hb2|Hb2].
    { handle_plainly ltac:(eapply follow_blocked; eauto). done. }
    destruct (decide (edge app f e)) as [Hedge|Hedge].
    { handle_plainly ltac:(by eapply follow_present). done. }
    handle_plainly ltac:(by eapply follow_new).
    by eapply app_inv_followed.
  - destruct (handle_block_account 0 rnd 0 app b a)
      as (evs & app1 & Hb & [[-> Hh]|Hh]).
    + rewrite Hh. unfold _handle_block_account in Hb.
      repeat case_match; by simplify_eq.
    + destruct Hh as (blocker & evs2 & app2 & Hg & -> & Hr & Hp & _ & ->).
      assert (acc_id blocker = b) as Hid
        by (eapply repo_get_id; [apply Hinv|done]).
      assert (b ≠ a) as Hne.
      { intros ->. rewrite block_self in Hb. discriminate. }
      destruct (repo_get (accounts app) a) as [blocked|] eqn:Ha; cycle 1.
      { rewrite block_unknown in Hb by eauto. discriminate. }
      rewrite (block_known app b a blocker blocked) in Hb by done.
      assert (app1 = with_accounts app
                (save (mutated (accounts app) b (blocking blocker a))
                   (blocking blocker a))) as Happ1 by congruence.
      pose proof (app_inv_blocked app b a blocker Hinv Hg) as Hbut.
      rewrite <- Happ1 in Hbut. rewrite Hid in Hr. cbn [holds_after].
      clear Hb Happ1 Hid Hg.
      destruct (decide (edge app1 a b)) as [Hedge|Hedge].
      * rewrite remove_present in Hr by done. simplify_eq.
        by apply (app_inv_but_removed a b).
      * rewrite remove_absent in Hr by done. simplify_eq.
        by apply (app_inv_but_absent a b).
  - destruct (decide (edge app f e)) as [Hedge|Hedge].
    + handle_plainly ltac:(by apply remove_present).
      by apply app_inv_removed.
    + handle_plainly ltac:(by apply remove_absent).
      by apply app_inv_looked_up.
  - done.
Qed.

Lemma reachable_inv app : reachable app → app_inv app.
Proof.
  induction 1 as [|fuel rnd app cmd events app' log _ IH Hfresh Hh
                  |fuel rnd app cmd e app' log _ IH Hfresh Hh].
  - apply app_inv_initial.
  - pose proof (handle_preserves_inv rnd app cmd IH Hfresh) as Hp.
    destruct (handle_fuel fuel rnd 0 app cmd) as [Hf|Hf]; [congruence|].
    by rewrite <- Hf, Hh in Hp.
  - pose proof (handle_preserves_inv rnd app cmd IH Hfresh) as Hp.
    destruct (handle_fuel fuel rnd 0 app cmd) as [Hf|Hf]; [congruence|].
    by rewrite <- Hf, Hh in Hp.
Qed.

Lemma reachable_run rnd app cmd :
  reachable app → fresh_uuid app rnd → reachable (run rnd app cmd).
Proof.
  intros Hr Hf. unfold run.
  destruct (handle 2 rnd 0 app cmd) as [evs app' log|e app' log|] eqn:Hh; simpl.
  - by eapply reachable_returned.
  - by eapply reachable_raised.
  - done.
Qed.

Lemma demo_registered_reachable : reachable demo_registered.
Proof.
  unfold demo_registered.
  apply reachable_run; [apply reachable_run; [apply reachable_initial|]|];
    (split; [done|vm_compute; reflexivity]).
Qed.

Lemma demo_following_reachable : reachable demo_following.
Proof.
  apply reachable_run; [apply demo_registered_reachable|].
  split; [done|vm_compute; reflexivity].
Qed.

Lemma demo_blocked_reachable : reachable demo_blocked.
Proof.
  apply reachable_run; [apply demo_following_reachable|].
  split; [done|vm_compute; reflexivity].
Qed.

Lemma demo_follower_blocks_reachable : reachable demo_follower_blocks.
Proof.
  apply reachable_run; [apply demo_following_reachable|].
  split; [done|vm_compute; reflexivity].
Qed.

(** ** The read model (C5) *)

(** C5. In every state reachable by [handle] calls from the initial one, the
    read model holds, for every account id, the sets the two indexes of the
    follow repository hold, which are the edges from it and the edges to it;
    the next [handle] call, with whatever it cascades, keeps it so; and
    projecting an [AccountRegistered] changes nothing. *)
Theorem read_model_mirrors_follow_repo (app : Application) :
  reachable app →
  read_model_consistent app ∧
  (∀ follower followee,
     (AccountId_value followee ∈
        dd_get (read_following app) (AccountId_value follower)
      ↔ edge app follower followee) ∧
     (AccountId_value follower ∈
        dd_get (read_followers app) (AccountId_value followee)
      ↔ edge app follower followee)) ∧
  (∀ rnd cmd n, fresh_uuid app rnd →
     holds_after read_model_consistent (handle (S (S n)) rnd 0 app cmd)) ∧
  (∀ account_id email username,
     _project app (AccountRegistered account_id email username) = app).
Proof.
  intros Hr. pose proof (reachable_inv app Hr) as Hinv. split_and!.
  - apply Hinv.
  - intros f e. destruct (inv_read_model app Hinv (AccountId_value f)) as [-> _].
    destruct (inv_read_model app Hinv (AccountId_value e)) as [_ ->].
    split; [done|]. symmetry. apply (inv_index app Hinv).
  - intros rnd cmd n Hf. rewrite handle_fuel_2.
    pose proof (handle_preserves_inv rnd app cmd Hinv Hf) as Hp.
    destruct (handle 2 rnd 0 app cmd); simpl in *; try done; apply Hp.
  - done.
Qed.

Lemma read_model_mirrors_follow_repo_witness :
  reachable demo_following ∧
  read_model_consistent demo_following ∧
  (∀ follower followee,
     (AccountId_value followee ∈
        dd_get (read_following demo_following) (AccountId_value follower)
      ↔ edge demo_following follower followee) ∧
     (AccountId_value follower ∈
        dd_get (read_followers demo_following) (AccountId_value followee)
      ↔ edge demo_following follower followee)) ∧
  (∀ rnd cmd n, fresh_uuid demo_following rnd →
     holds_after read_model_consistent (handle (S (S n)) rnd 0 demo_following cmd)) ∧
  (∀ account_id email username,
     _project demo_following (AccountRegistered account_id email username) =
     demo_following).
Proof.
  split; [apply demo_following_reachable|].
  apply (read_model_mirrors_follow_repo demo_following).
  apply demo_following_reachable.
Defined.

(** ** Edges and blocks (C3) *)

(** C3, as the code has it. In every reachable state no account follows
    itself, and no edge leads to an account that has blocked its
    follower. *)
Theorem edges_respect_followee_blocks (app : Application) :
  reachable app → no_self_loop app ∧ no_edge_to_blocker app.
Proof.
  intros Hr. pose proof (reachable_inv app Hr) as Hinv. split; apply Hinv.
Qed.

Lemma edges_respect_followee_blocks_witness :
  reachable demo_blocked ∧ no_self_loop demo_blocked ∧ no_edge_to_blocker demo_blocked.
Proof.
  split; [apply demo_blocked_reachable|].
  apply (edges_respect_followee_blocks demo_blocked).
  apply demo_blocked_reachable.
Defined.

(** C3 as stated fails: once Alice, who follows Bob, has blocked him, the
    edge from Alice to Bob is still in the repository. *)
Lemma blocker_keeps_own_edge :
  ¬ (∀ app, reachable app →
       no_self_loop app ∧ no_edge_to_blocker app ∧ no_edge_from_blocker app).
Proof.
  intros Hall.
  destruct (Hall demo_follower_blocks demo_follower_blocks_reachable)
    as (_ & _ & Hfrom).
  apply (Hfrom alice bob
           (mkAccount alice (mkEmail "a@x.com") (mkUsername "alice_uk") {[bob]})).
  - compute_done.
  - vm_compute. reflexivity.
  - simpl. set_solver.
Qed.

(** ** Registration (C4) *)

Lemma taken_truthy app email username :
  accounts_wf (accounts app) →
  taken app email username ↔
  truthy (get_by_email (accounts app) email)
  || truthy (get_by_username (accounts app) username) = true.
Proof.
  intros Hwf. rewrite orb_true_iff, get_by_email_wf, get_by_username_wf by done.
  unfold taken. naive_solver.
Qed.

(** C4, as the code has it. In a reachable state, and with a fresh id from
    [uuid4]: if a persisted account has the email or the username, the
    handler returns one [AccountAlreadyExists], whose reason is "Duplicate
    email or username", and persists nothing; otherwise it returns one
    [AccountRegistered] for the new id and persists the account, and then a
    registration with the same email and any username is a duplicate. *)
Theorem register_account_decides (app : Application) (rnd : string)
  (email : Email) (username : Username) :
  reachable app → fresh_uuid app rnd →
  (taken app email username →
   _handle_register_account rnd app (RegisterAccount email username) =
   Returned [AccountAlreadyExists (Some email) (Some username)
               "Duplicate email or username"] app []) ∧
  (¬ taken app email username →
   ∃ app',
     _handle_register_account rnd app (RegisterAccount email username) =
     Returned [AccountRegistered (mkAccountId rnd) email username] app' [] ∧
     repo_get (accounts app') (mkAccountId rnd) =
       Some (mkAccount (mkAccountId rnd) email username ∅) ∧
     size (by_id (accounts app')) = S (size (by_id (accounts app))) ∧
     ∀ rnd2 username2,
       _handle_register_account rnd2 app' (RegisterAccount email username2) =
       Returned [AccountAlreadyExists (Some email) (Some username2)
                   "Duplicate email or username"] app' []).
Proof.
  intros Hr [Hne Hfresh].
  pose proof (inv_accounts app (reachable_inv app Hr)) as Hwf. split.
  - intros Ht. apply register_duplicate. by apply taken_truthy.
  - intros Hnt.
    assert (truthy (get_by_email (accounts app) email)
            || truthy (get_by_username (accounts app) username) = false) as Hdup.
    { apply not_true_is_false. intros Ht. by apply Hnt, taken_truthy. }
    eexists. split; [by apply register_new|]. split_and!.
    + unfold repo_get, save. simpl. by rewrite lookup_insert_eq.
    + unfold save. simpl. by apply map_size_insert_None.
    + intros rnd2 username2. apply register_duplicate.
      apply taken_truthy; [by apply accounts_wf_save_new|].
      exists rnd, (mkAccount (mkAccountId rnd) email username ∅).
      split; [|by left]. unfold save. simpl. by rewrite lookup_insert_eq.
Qed.

Lemma register_account_decides_witness :
  reachable initial ∧ fresh_uuid initial "alice" ∧
  (taken initial (mkEmail "a@x.com") (mkUsername "alice_uk") →
   _handle_register_account "alice" initial
     (RegisterAccount (mkEmail "a@x.com") (mkUsername "alice_uk")) =
   Returned [AccountAlreadyExists (Some (mkEmail "a@x.com"))
               (Some (mkUsername "alice_uk")) "Duplicate email or username"]
     initial []) ∧
  (¬ taken initial (mkEmail "a@x.com") (mkUsername "alice_uk") →
   ∃ app',
     _handle_register_account "alice" initial
       (RegisterAccount (mkEmail "a@x.com") (mkUsername "alice_uk")) =
     Returned [AccountRegistered (mkAccountId "alice") (mkEmail "a@x.com")
                 (mkUsername "alice_uk")] app' [] ∧
     repo_get (accounts app') (mkAccountId "alice") =
       Some (mkAccount (mkAccountId "alice") (mkEmail "a@x.com")
               (mkUsername "alice_uk") ∅) ∧
     size (by_id (accounts app')) = S (size (by_id (accounts initial))) ∧
     ∀ rnd2 username2,
       _handle_register_account rnd2 app'
         (RegisterAccount (mkEmail "a@x.com") username2) =
       Returned [AccountAlreadyExists (Some (mkEmail "a@x.com")) (Some username2)
                   "Duplicate email or username"] app' []).
Proof.
  split; [apply reachable_initial|].
  split; [split; [discriminate|reflexivity]|].
  apply (register_account_decides initial "alice" (mkEmail "a@x.com")
           (mkUsername "alice_uk")).
  - apply reachable_initial.
  - split; [discriminate|reflexivity].
Defined.

(** C4 as stated fails: the reason of the event is not "duplicate". The
    second command has the email of the first and another username, both
    of which their constructors accept. *)
Lemma duplicate_reason_differs :
  Email_new "a@x.com" = inr (mkEmail "a@x.com") ∧
  Username_new "alice_uk" = inr (mkUsername "alice_uk") ∧
  Username_new "alice2" = inr (mkUsername "alice2") ∧
  taken (run "alice" initial
           (RegisterAccount (mkEmail "a@x.com") (mkUsername "alice_uk")))
    (mkEmail "a@x.com") (mkUsername "alice2") ∧
  ¬ ∃ email username app' log,
      _handle_register_account "bob"
        (run "alice" initial
           (RegisterAccount (mkEmail "a@x.com") (mkUsername "alice_uk")))
        (RegisterAccount (mkEmail "a@x.com") (mkUsername "alice2")) =
      Returned [AccountAlreadyExists email username "duplicate"] app' log.
Proof.
  split; [vm_compute; reflexivity|].
  split; [vm_compute; reflexivity|].
  split; [vm_compute; reflexivity|].
  split.
  - exists "alice", (mkAccount (mkAccountId "alice") (mkEmail "a@x.com")
                       (mkUsername "alice_uk") ∅).
    split; [vm_compute; reflexivity|by left].
  - intros (email & username & app' & log & H).
    rewrite register_duplicate in H by (vm_compute; reflexivity).
    discriminate.
Qed.

(** ** Blocking (C2, C7) *)

(** [handle] on [BlockAccount(b, a)] for two distinct persisted accounts of
    a well indexed repository. *)
Lemma handle_block_known n rnd d app b a blocker blocked :
  accounts_wf (accounts app) →
  b ≠ a →
  repo_get (accounts app) b = Some blocker →
  repo_get (accounts app) a = Some blocked →
  ∃ app1,
    _handle_block_account app (BlockAccount b a) =
      Returned [AccountBlocked b a] app1 [] ∧
    app1 = with_accounts app
             (mkAccountRepo
                (<[AccountId_value b := blocking blocker a]> (by_id (accounts app)))
                (by_email (accounts app)) (by_username (accounts app))) ∧
    (edge app a b →
     handle (S (S n)) rnd d app (BlockAccount b a) =
     Returned [AccountBlocked b a]
       (_project (with_follows app1 (follow_remove (follows app1) a b))
          (FollowerRemoved a b "Blocked"))
       [call_handle d (BlockAccount b a);
        call_publish d (AccountBlocked b a);
        call_subscriber d fn_on_account_blocked (AccountBlocked b a);
        call_handle (S d) (RemoveFollower a b);
        call_publish (S d) (FollowerRemoved a b "Blocked");
        call_subscriber (S d) fn_project (FollowerRemoved a b "Blocked")]) ∧
    (¬ edge app a b →
     handle (S (S n)) rnd d app (BlockAccount b a) =
     Returned [AccountBlocked b a]
       (with_follows app1 (follow_exists (follows app1) a b).2)
       [call_handle d (BlockAccount b a);
        call_publish d (AccountBlocked b a);
        call_subscriber d fn_on_account_blocked (AccountBlocked b a);
        call_handle (S d) (RemoveFollower a b)]).
Proof.
  intros Hwf Hne Hb Ha.
  pose proof (repo_get_id _ _ _ Hwf Hb) as Hid.
  pose proof (block_known app b a blocker blocked Hne Hb Ha) as Hblock.
  rewrite Hid, save_blocking in Hblock by done.
  eexists. split; [exact Hblock|]. split; [reflexivity|].
  destruct (handle_block_account n rnd d app b a)
    as (evs & app1 & Hb' & [[-> _]|Hh]); [congruence|].
  destruct Hh as (blocker' & evs2 & app2 & Hg & -> & Hr & _ & _ & ->).
  assert (blocker' = blocker) as -> by congruence.
  rewrite Hid in *. rewrite Hblock in Hb'. injection Hb' as <-.
  split; intros Hedge.
  - rewrite remove_present in Hr by done. by injection Hr as <- <-.
  - rewrite remove_absent in Hr by done. by injection Hr as <- <-.
Qed.

(** C2. In a reachable state where [a] follows [b], both persisted,
    [handle] on [BlockAccount(b, a)] returns the one [AccountBlocked]; the
    handler itself leaves the edge in place; the log shows the policy
    handling [RemoveFollower(a, b)] one level deeper, and the
    [FollowerRemoved] published there; afterwards the edge is gone. *)
Theorem block_removes_follower (app : Application) (a b : AccountId)
  (rnd : string) (n : nat) :
  reachable app →
  is_Some (repo_get (accounts app) a) →
  is_Some (repo_get (accounts app) b) →
  edge app a b →
  ∃ app1 app',
    _handle_block_account app (BlockAccount b a) =
      Returned [AccountBlocked b a] app1 [] ∧
    edge app1 a b ∧
    handle (S (S n)) rnd 0 app (BlockAccount b a) =
      Returned [AccountBlocked b a] app'
        [call_handle 0 (BlockAccount b a);
         call_publish 0 (AccountBlocked b a);
         call_subscriber 0 fn_on_account_blocked (AccountBlocked b a);
         call_handle 1 (RemoveFollower a b);
         call_publish 1 (FollowerRemoved a b "Blocked");
         call_subscriber 1 fn_project (FollowerRemoved a b "Blocked")] ∧
    ¬ edge app' a b ∧
    (follow_exists (follows app') a b).1 = false.
Proof.
  intros Hr [blocked Ha] [blocker Hb] Hedge.
  pose proof (reachable_inv app Hr) as [Hwf _ _ Hloop _].
  assert (b ≠ a) as Hne by (intros ->; by apply (Hloop a)).
  destruct (handle_block_known n rnd 0 app b a blocker blocked Hwf Hne Hb Ha)
    as (app1 & Hblock & Happ1 & Hh & _).
  specialize (Hh Hedge).
  eexists app1, _. split; [exact Hblock|]. split; [by subst app1|].
  split; [exact Hh|].
  assert (¬ edge (_project (with_follows app1 (follow_remove (follows app1) a b))
                    (FollowerRemoved a b "Blocked")) a b) as Hgone.
  { unfold edge. simpl. rewrite dd_get_discard, decide_True by done. set_solver. }
  split; [exact Hgone|].
  rewrite follow_exists_fst. by apply bool_decide_eq_false_2.
Qed.

Lemma block_removes_follower_witness :
  reachable demo_following ∧
  is_Some (repo_get (accounts demo_following) alice) ∧
  is_Some (repo_get (accounts demo_following) bob) ∧
  edge demo_following alice bob ∧
  ∃ app1 app',
    _handle_block_account demo_following (BlockAccount bob alice) =
      Returned [AccountBlocked bob alice] app1 [] ∧
    edge app1 alice bob ∧
    handle 2 "d" 0 demo_following (BlockAccount bob alice) =
      Returned [AccountBlocked bob alice] app'
        [call_handle 0 (BlockAccount bob alice);
         call_publish 0 (AccountBlocked bob alice);
         call_subscriber 0 fn_on_account_blocked (AccountBlocked bob alice);
         call_handle 1 (RemoveFollower alice bob);
         call_publish 1 (FollowerRemoved alice bob "Blocked");
         call_subscriber 1 fn_project (FollowerRemoved alice bob "Blocked")] ∧
    ¬ edge app' alice bob ∧
    (follow_exists (follows app') alice bob).1 = false.
Proof.
  assert (is_Some (repo_get (accounts demo_following) alice)) as Ha
    by (vm_compute; eexists; reflexivity).
  assert (is_Some (repo_get (accounts demo_following) bob)) as Hb
    by (vm_compute; eexists; reflexivity).
  assert (edge demo_following alice bob) as He by compute_done.
  split; [apply demo_following_reachable|].
  split; [exact Ha|]. split; [exact Hb|]. split; [exact He|].
  exact (block_removes_follower demo_following alice bob "d" 0
           demo_following_reachable Ha Hb He).
Defined.

Lemma blocking_again self other :
  other ∈ acc_blocked self → blocking self other = self.
Proof.
  intros Hin. destruct self as [i e u bl]. unfold blocking. simpl in *.
  f_equal. set_solver.
Qed.

Lemma elem_of_blocking self other : other ∈ acc_blocked (blocking self other).
Proof. unfold blocking. simpl. set_solver. Qed.

(** Blocking an account that is blocked already, and does not follow the
    blocker, changes nothing. *)
Lemma handle_block_again n rnd d app b a blocker blocked :
  accounts_wf (accounts app) →
  b ≠ a →
  repo_get (accounts app) b = Some blocker →
  repo_get (accounts app) a = Some blocked →
  a ∈ acc_blocked blocker →
  ¬ edge app a b →
  is_Some (following (follows app) !! AccountId_value a) →
  handle (S (S n)) rnd d app (BlockAccount b a) =
  Returned [AccountBlocked b a] app
    [call_handle d (BlockAccount b a);
     call_publish d (AccountBlocked b a);
     call_subscriber d fn_on_account_blocked (AccountBlocked b a);
     call_handle (S d) (RemoveFollower a b)].
Proof.
  intros Hwf Hne Hb Ha Hin Hedge Hkey.
  destruct (handle_block_known n rnd d app b a blocker blocked Hwf Hne Hb Ha)
    as (app1 & _ & Happ1 & _ & Hh).
  rewrite (Hh Hedge). f_equal.
  rewrite blocking_again in Happ1 by done.
  unfold repo_get in Hb. rewrite insert_id in Happ1 by done.
  subst app1. unfold follow_exists, with_follows, with_accounts. simpl.
  rewrite dd_touch_present by done.
  by destruct app as [[] [] ? ?].
Qed.

Lemma filter_eq_absent {A : Type} `{EqDecision A} (x : A) (l : list A) :
  x ∉ l → filter (λ y, y = x) l = [].
Proof.
  induction l as [|y l IH]; intros Hx; [done|].
  apply not_elem_of_cons in Hx as [Hne Hx].
  rewrite filter_cons, decide_False by done. by apply IH.
Qed.

Lemma filter_eq_once {A : Type} `{EqDecision A} (x : A) (l : list A) :
  NoDup l → x ∈ l → length (filter (λ y, y = x) l) = 1.
Proof.
  induction 1 as [|y l Hy Hnd IH]; intros Hin.
  - by apply not_elem_of_nil in Hin.
  - rewrite filter_cons. case_decide as Heq.
    + subst y. simpl. by rewrite filter_eq_absent.
    + apply elem_of_cons in Hin as [->|Hin]; [done|]. by apply IH.
Qed.

Lemma blocked_once (s : gset AccountId) (x : AccountId) :
  x ∈ s → length (filter (λ y, y = x) (elements s)) = 1.
Proof.
  intros Hin. apply filter_eq_once; [apply NoDup_elements|].
  by apply elem_of_elements.
Qed.

(** C7. [Account.block] reports [AccountBlocked] whether or not the id was
    blocked, adds the id at most once, and changes nothing when called
    again. In a reachable state with two distinct persisted accounts,
    handling [BlockAccount(b, a)] twice returns [AccountBlocked] both times;
    the second call leaves the state as the first left it, with [a] once
    in the blocked set of [b]. *)
Theorem block_is_idempotent (acc : Account) (other : AccountId)
  (app : Application) (a b : AccountId) (rnd1 rnd2 : string) (n : nat) :
  reachable app →
  a ≠ b →
  is_Some (repo_get (accounts app) a) →
  is_Some (repo_get (accounts app) b) →
  ((Account_block acc other).2 = AccountBlocked (acc_id acc) other ∧
   acc_blocked (Account_block acc other).1 = {[other]} ∪ acc_blocked acc ∧
   (other ∈ acc_blocked acc → (Account_block acc other).1 = acc) ∧
   Account_block (Account_block acc other).1 other =
     ((Account_block acc other).1, AccountBlocked (acc_id acc) other) ∧
   length (filter (λ x, x = other)
             (elements (acc_blocked (Account_block acc other).1))) = 1) ∧
  ∃ app1 log1 log2 blocker,
    handle (S (S n)) rnd1 0 app (BlockAccount b a) =
      Returned [AccountBlocked b a] app1 log1 ∧
    handle (S (S n)) rnd2 0 app1 (BlockAccount b a) =
      Returned [AccountBlocked b a] app1 log2 ∧
    repo_get (accounts app1) b = Some blocker ∧
    length (filter (λ x, x = a) (elements (acc_blocked blocker))) = 1.
Proof.
  intros Hr Hne [blocked Ha] [blocker Hb]. split.
  - rewrite Account_block_eq. cbn [fst snd]. split_and!.
    + done.
    + done.
    + apply blocking_again.
    + rewrite Account_block_eq. f_equal. apply blocking_again, elem_of_blocking.
    + apply blocked_once, elem_of_blocking.
  - pose proof (reachable_inv app Hr) as [Hwf _ _ _ _].
    assert (b ≠ a) as Hne' by done.
    destruct (handle_block_known n rnd1 0 app b a blocker blocked Hwf Hne' Hb Ha)
      as (appB & _ & HappB & Hyes & Hno).
    pose proof (accounts_wf_blocking _ b blocker a Hwf Hb) as Hwf'.
    assert (repo_get (accounts appB) b = Some (blocking blocker a)) as Hb'.
    { subst appB. unfold repo_get. simpl. by rewrite lookup_insert_eq. }
    assert (repo_get (accounts appB) a = Some blocked) as Ha'.
    { subst appB. unfold repo_get. simpl. rewrite lookup_insert_ne; [done|].
      intros Heq. by apply Hne', AccountId_value_inj. }
    assert (accounts_wf (accounts appB)) as HwfB by (by subst appB).
    destruct (decide (edge app a b)) as [Hedge|Hedge].
    + eexists _, _, _, (blocking blocker a). split; [exact (Hyes Hedge)|].
      split; [|split; [exact Hb'|apply blocked_once, elem_of_blocking]].
      eapply handle_block_again; [exact HwfB|done|exact Hb'|exact Ha'| | |].
      * apply elem_of_blocking.
      * unfold edge. simpl. rewrite dd_get_discard, decide_True by done.
        set_solver.
      * simpl. apply dd_discard_is_Some.
    + eexists _, _, _, (blocking blocker a). split; [exact (Hno Hedge)|].
      split; [|split; [exact Hb'|apply blocked_once, elem_of_blocking]].
      eapply handle_block_again; [exact HwfB|done|exact Hb'|exact Ha'| | |].
      * apply elem_of_blocking.
      * unfold edge. simpl. rewrite dd_get_touch. subst appB. exact Hedge.
      * simpl. apply dd_touch_is_Some.
Qed.

Lemma block_is_idempotent_witness :
  reachable demo_following ∧ alice ≠ bob ∧
  is_Some (repo_get (accounts demo_following) alice) ∧
  is_Some (repo_get (accounts demo_following) bob) ∧
  ((Account_block (mkAccount bob (mkEmail "b@x.com") (mkUsername "bob_uk") ∅)
      alice).2 = AccountBlocked bob alice ∧
   acc_blocked
     (Account_block (mkAccount bob (mkEmail "b@x.com") (mkUsername "bob_uk") ∅)
        alice).1 = {[alice]} ∪ ∅ ∧
   (alice ∈ (∅ : gset AccountId) →
    (Account_block (mkAccount bob (mkEmail "b@x.com") (mkUsername "bob_uk") ∅)
       alice).1 = mkAccount bob (mkEmail "b@x.com") (mkUsername "bob_uk") ∅) ∧
   Account_block
     (Account_block (mkAccount bob (mkEmail "b@x.com") (mkUsername "bob_uk") ∅)
        alice).1 alice =
     ((Account_block (mkAccount bob (mkEmail "b@x.com") (mkUsername "bob_uk") ∅)
         alice).1, AccountBlocked bob alice) ∧
   length (filter (λ x, x = alice)
             (elements
                (acc_blocked
                   (Account_block
                      (mkAccount bob (mkEmail "b@x.com") (mkUsername "bob_uk") ∅)
                      alice).1))) = 1) ∧
  ∃ app1 log1 log2 blocker,
    handle 2 "d" 0 demo_following (BlockAccount bob alice) =
      Returned [AccountBlocked bob alice] app1 log1 ∧
    handle 2 "e" 0 app1 (BlockAccount bob alice) =
      Returned [AccountBlocked bob alice] app1 log2 ∧
    repo_get (accounts app1) bob = Some blocker ∧
    length (filter (λ x, x = alice) (elements (acc_blocked blocker))) = 1.
Proof.
  assert (alice ≠ bob) as Hne by discriminate.
  assert (is_Some (repo_get (accounts demo_following) alice)) as Ha
    by (vm_compute; eexists; reflexivity).
  assert (is_Some (repo_get (accounts demo_following) bob)) as Hb
    by (vm_compute; eexists; reflexivity).
  split; [apply demo_following_reachable|].
  split; [exact Hne|]. split; [exact Ha|]. split; [exact Hb|].
  exact (block_is_idempotent
           (mkAccount bob (mkEmail "b@x.com") (mkUsername "bob_uk") ∅) alice
           demo_following alice bob "d" "e" 0
           demo_following_reachable Hne Ha Hb).
Defined.

(** ** Following (C1) *)

(** C1, as the code has it. The handler of [FollowAccount] decides in this
    order: follower and followee equal, whether persisted or not: one
    [FollowRejectedBlocked], reason "Cannot follow self"; else one of them
    not persisted: reason "Unknown accounts"; else one of them blocking the
    other: reason "Blocked relationship"; else the edge present: no event.
    In these four cases the state is unchanged. Otherwise it returns one
    [AccountFollowed], and the state differs by this one edge. *)
Theorem follow_account_decides (app : Application) (f e : AccountId) :
  (f = e →
   _handle_follow_account app (FollowAccount f e) =
   Returned [FollowRejectedBlocked f e "Cannot follow self"] app []) ∧
  (f ≠ e →
   repo_get (accounts app) f = None ∨ repo_get (accounts app) e = None →
   _handle_follow_account app (FollowAccount f e) =
   Returned [FollowRejectedBlocked f e "Unknown accounts"] app []) ∧
  (∀ af ae,
     f ≠ e →
     repo_get (accounts app) f = Some af →
     repo_get (accounts app) e = Some ae →
     (e ∈ acc_blocked af ∨ f ∈ acc_blocked ae →
      _handle_follow_account app (FollowAccount f e) =
      Returned [FollowRejectedBlocked f e "Blocked relationship"] app []) ∧
     (e ∉ acc_blocked af → f ∉ acc_blocked ae → edge app f e →
      _handle_follow_account app (FollowAccount f e) = Returned [] app []) ∧
     (e ∉ acc_blocked af → f ∉ acc_blocked ae → ¬ edge app f e →
      ∃ app',
        _handle_follow_account app (FollowAccount f e) =
          Returned [AccountFollowed f e] app' [] ∧
        accounts app' = accounts app ∧
        read_followers app' = read_followers app ∧
        read_following app' = read_following app ∧
        (∀ x y, edge app' x y ↔ edge app x y ∨ (x = f ∧ y = e)) ∧
        (∀ x y,
           AccountId_value x ∈ dd_get (followers (follows app')) (AccountId_value y)
           ↔ AccountId_value x ∈ dd_get (followers (follows app)) (AccountId_value y)
             ∨ (x = f ∧ y = e)))).
Proof.
  split_and!.
  - intros ->. apply follow_self.
  - apply follow_unknown.
  - intros af ae Hne Hf He. split_and!.
    + by apply follow_blocked.
    + by apply follow_present.
    + intros Hb1 Hb2 Hedge. eexists. split; [by eapply follow_new|].
      rewrite follow_add_new by done. split_and!; [done..| |].
      * intros x y. unfold edge. simpl. rewrite dd_get_add, !dd_get_touch.
        case_decide as Hx.
        -- apply AccountId_value_inj in Hx. subst x.
           rewrite elem_of_union, elem_of_singleton. split.
           ++ intros [Heq|Hin]; [right|by left].
              split; [done|by apply AccountId_value_inj].
           ++ intros [Hin|[_ ->]]; [by right|by left].
        -- split; [by left|]. intros [Hin|[-> ->]]; done.
      * intros x y. simpl. rewrite dd_get_add. case_decide as Hy.
        -- apply AccountId_value_inj in Hy. subst y.
           rewrite elem_of_union, elem_of_singleton. split.
           ++ intros [Heq|Hin]; [right|by left].
              split; [by apply AccountId_value_inj|done].
           ++ intros [Hin|[-> _]]; [by right|by left].
        -- split; [by left|]. intros [Hin|[-> ->]]; done.
Qed.

(** C1 as stated fails: the reason is not "cannot follow self". *)
Lemma follow_self_reason_differs :
  ¬ ∃ app' log,
      _handle_follow_account initial (FollowAccount alice alice) =
      Returned [FollowRejectedBlocked alice alice "cannot follow self"] app' log.
Proof. intros (app' & log & H). rewrite follow_self in H. discriminate. Qed.

(** ** Validation of the value objects (C8) *)

Lemma exists_split_ext f g s :
  (∀ u v, f u v = g u v) → exists_split f s = exists_split g s.
Proof.
  revert f g. induction s as [|c s IH]; intros f g H; simpl.
  - by rewrite H.
  - rewrite H. f_equal. apply IH. intros u v. apply H.
Qed.

Lemma append_nil_l (v : string) : "" +:+ v = v.
Proof. reflexivity. Qed.

Lemma append_cons (c : ascii) (u v : string) :
  String c u +:+ v = String c (u +:+ v).
Proof. reflexivity. Qed.

Lemma exists_split_spec f s :
  exists_split f s = true ↔ ∃ u v, s = u +:+ v ∧ f u v = true.
Proof.
  revert f. induction s as [|c s IH]; intros f; simpl.
  - rewrite orb_false_r. split.
    + intros H. by exists "", "".
    + intros (u & v & Hs & H). destruct u; [|done].
      rewrite append_nil_l in Hs. by subst v.
  - rewrite orb_true_iff, IH. split.
    + intros [H|(u & v & -> & H)].
      * by exists "", (String c s).
      * by exists (String c u), v.
    + intros (u & v & Hs & H). destruct u as [|c' u].
      * left. rewrite append_nil_l in Hs. by subst v.
      * right. rewrite append_cons in Hs. injection Hs as -> ->. by exists u, v.
Qed.

Lemma matches_none s : matches re_none s = false.
Proof. by induction s. Qed.

Lemma matches_alt r1 r2 s :
  matches (re_alt r1 r2) s = matches r1 s || matches r2 s.
Proof. revert r1 r2. induction s as [|c s IH]; intros; simpl; [done|apply IH]. Qed.

Lemma matches_seq r1 r2 s :
  matches (re_seq r1 r2) s =
  exists_split (λ u v, matches r1 u && matches r2 v) s.
Proof.
  revert r1. induction s as [|c s IH]; intros r1.
  - simpl. by rewrite orb_false_r.
  - cbn [matches deriv exists_split]. destruct (nullable r1) eqn:Hn.
    + rewrite matches_alt, IH. cbn [matches]. simpl. apply orb_comm.
    + rewrite IH. by cbn [matches].
Qed.

Lemma matches_eps s : matches re_eps s = match s with "" => true | _ => false end.
Proof. destruct s; [done|]. simpl. apply matches_none. Qed.

Lemma matches_set p s :
  matches (re_set p) s =
  match s with String c "" => p c | _ => false end.
Proof.
  destruct s as [|c s]; [done|]. simpl. destruct (p c).
  - rewrite matches_eps. by destruct s.
  - rewrite matches_none. by destruct s.
Qed.

(** A split whose first part must be empty. *)
Lemma exists_split_empty (b : bool) (h : string → bool) s :
  exists_split (λ u v, match u with "" => b | _ => false end && h v) s = b && h s.
Proof.
  destruct s as [|c s]; simpl; [by rewrite orb_false_r|].
  assert (∀ t, exists_split (λ _ _, false) t = false) as ->
    by (induction t; simpl; done).
  by rewrite orb_false_r.
Qed.

Lemma matches_star_set p s :
  matches (re_star (re_set p)) s = string_forallb p s.
Proof.
  induction s as [|c s IH]; [done|].
  cbn [matches deriv string_forallb]. rewrite matches_seq.
  rewrite (exists_split_ext _
             (λ u v, match u with "" => p c | _ => false end
                     && matches (re_star (re_set p)) v)).
  - by rewrite exists_split_empty, IH.
  - intros u v. f_equal. destruct (p c).
    + apply matches_eps.
    + rewrite matches_none. by destruct u.
Qed.

Lemma matches_plus_set p s :
  matches (re_plus (re_set p)) s = nonempty_all p s.
Proof.
  destruct s as [|c s]; [done|]. unfold re_plus.
  cbn [matches deriv nullable nonempty_all string_forallb]. rewrite matches_seq.
  rewrite (exists_split_ext _
             (λ u v, match u with "" => p c | _ => false end
                     && matches (re_star (re_set p)) v)).
  - by rewrite exists_split_empty, matches_star_set.
  - intros u v. f_equal. destruct (p c).
    + apply matches_eps.
    + rewrite matches_none. by destruct u.
Qed.

Lemma matches_rep_set p lo hi s :
  matches (re_rep (re_set p) lo hi) s =
  (lo <=? String.length s)%nat && (String.length s <=? hi)%nat
  && string_forallb p s.
Proof.
  revert lo hi. induction s as [|c s IH]; intros lo hi.
  - simpl. rewrite orb_false_r, andb_true_r.
    destruct lo; simpl; [done|]. by rewrite andb_false_r.
  - cbn [matches deriv String.length string_forallb]. destruct hi as [|hi].
    { rewrite matches_none. simpl. by rewrite andb_false_r. }
    destruct (lo <=? S hi)%nat eqn:Hlo.
    + rewrite matches_seq.
      rewrite (exists_split_ext _
                 (λ u v, match u with "" => p c | _ => false end
                         && matches (re_rep (re_set p) (pred lo) hi) v)).
      * rewrite exists_split_empty, IH.
        assert ((pred lo <=? String.length s)%nat = (lo <=? S (String.length s))%nat)
          as -> by (destruct lo; done).
        change (S (String.length s) <=? S hi)%nat with (String.length s <=? hi)%nat.
        destruct (p c); simpl; [done|]. by rewrite !andb_false_r.
      * intros u v. f_equal. destruct (p c).
        -- apply matches_eps.
        -- rewrite matches_none. by destruct u.
    + rewrite matches_none. symmetry. apply not_true_is_false. intros H.
      apply andb_prop in H as [H _]. apply andb_prop in H as [H1 H2].
      apply Nat.leb_le in H1, H2. apply Nat.leb_gt in Hlo. simpl in *. lia.
Qed.

Lemma matches_seq_spec r1 r2 s :
  matches (re_seq r1 r2) s = true ↔
  ∃ u v, s = u +:+ v ∧ matches r1 u = true ∧ matches r2 v = true.
Proof.
  rewrite matches_seq, exists_split_spec.
  split; intros (u & v & Hs & H); exists u, v; (split; [done|]).
  - by apply andb_prop.
  - by apply andb_true_intro.
Qed.

Lemma matches_chr c s : matches (re_chr c) s = true ↔ s = String c "".
Proof.
  unfold re_chr. rewrite matches_set. destruct s as [|c' [|c'' s]]; try done.
  rewrite Ascii.eqb_eq. split; congruence.
Qed.

Lemma matches_email s : matches email_pattern s = true ↔ email_shape s.
Proof.
  unfold email_pattern, email_shape. split.
  - intros H.
    apply matches_seq_spec in H as (l & r1 & -> & Hl & H).
    apply matches_seq_spec in H as (at_ & r2 & -> & Hat & H).
    apply matches_seq_spec in H as (d & r3 & -> & Hd & H).
    apply matches_seq_spec in H as (dot & t & -> & Hdot & Ht).
    apply matches_chr in Hat as ->. apply matches_chr in Hdot as ->.
    rewrite matches_plus_set in Hl, Hd, Ht. by exists l, d, t.
  - intros (l & d & t & -> & Hl & Hd & Ht).
    rewrite <- matches_plus_set in Hl, Hd, Ht.
    apply matches_seq_spec. exists l, ("@" +:+ d +:+ "." +:+ t).
    split; [done|]. split; [done|].
    apply matches_seq_spec. exists "@", (d +:+ "." +:+ t).
    split; [done|]. split; [by apply matches_chr|].
    apply matches_seq_spec. exists d, ("." +:+ t).
    split; [done|]. split; [done|].
    apply matches_seq_spec. exists ".", t.
    split; [done|]. split; [by apply matches_chr|done].
Qed.

Lemma strip_final_newline_spec s s' :
  strip_final_newline s = Some s' ↔ s = s' +:+ String newline "".
Proof.
  revert s'. induction s as [|c s IH]; intros s'.
  - simpl. split; [done|]. by destruct s'.
  - destruct s as [|c2 s].
    + simpl. destruct (Ascii.eqb c newline) eqn:Hc.
      * apply Ascii.eqb_eq in Hc. subst c. split.
        -- by intros [= <-].
        -- destruct s' as [|? s']; [done|]. rewrite append_cons.
           intros [= _ H]. by destruct s'.
      * apply Ascii.eqb_neq in Hc. split; [done|].
        destruct s' as [|? s']; [rewrite append_nil_l; congruence|].
        rewrite append_cons. intros [= _ H]. by destruct s'.
    + change (strip_final_newline (String c (String c2 s)))
        with (String c <$> strip_final_newline (String c2 s)).
      destruct (strip_final_newline (String c2 s)) as [t|]; simpl.
      * split.
        -- intros [= <-]. rewrite append_cons. f_equal. by apply IH.
        -- destruct s' as [|c' s']; [done|]. rewrite append_cons.
           intros [= -> H]. apply IH in H. by injection H as ->.
      * split; [done|]. destruct s' as [|c' s']; [done|]. rewrite append_cons.
        intros [= -> H]. by apply IH in H.
Qed.

Lemma Username_new_accepts s :
  (∃ u, Username_new s = inr u) ↔
  username_shape s = true ∨
  ∃ s', s = s' +:+ String newline "" ∧ username_shape s' = true.
Proof.
  unfold Username_new, re_match_bol_eol, username_pattern, username_shape.
  rewrite matches_rep_set. split.
  - destruct (_ && _ && string_forallb _ s) eqn:H1; [by left|].
    destruct (strip_final_newline s) as [s'|] eqn:Hs; simpl.
    + rewrite matches_rep_set. intros [u Hu]. right. exists s'.
      split; [by apply strip_final_newline_spec|].
      by destruct (_ && _ && string_forallb _ s').
    + by intros [u Hu].
  - intros [-> |(s' & Hs & H)]; [by eexists|].
    apply strip_final_newline_spec in Hs. rewrite Hs, matches_rep_set, H.
    rewrite orb_true_r. by eexists.
Qed.

Lemma Email_new_accepts s :
  (∃ e, Email_new s = inr e) ↔
  email_shape s ∨ ∃ s', s = s' +:+ String newline "" ∧ email_shape s'.
Proof.
  unfold Email_new, re_match_bol_eol. split.
  - destruct (matches email_pattern s) eqn:H1; [left; by apply matches_email|].
    destruct (strip_final_newline s) as [s'|] eqn:Hs; simpl.
    + destruct (matches email_pattern s') eqn:H2; [|by intros [e He]].
      intros _. right. exists s'.
      split; [by apply strip_final_newline_spec|by apply matches_email].
    + by intros [e He].
  - intros [H|(s' & Hs & H)].
    + apply matches_email in H. rewrite H. by eexists.
    + apply strip_final_newline_spec in Hs. apply matches_email in H.
      rewrite Hs, H, orb_true_r. by eexists.
Qed.

(** C8 fails on the code. [$] holds before a final newline, so a valid
    value followed by one newline is accepted: the username then has a
    character outside [[A-Za-z0-9_]], the email a whitespace character.
    That apart the checks are as specified: a string is accepted exactly
    when it, or it without a final newline, has the shape. *)
Theorem final_newline_is_accepted :
  Username_new ("abc" +:+ String newline "") =
    inr (mkUsername ("abc" +:+ String newline "")) ∧
  Email_new ("a@b.c" +:+ String newline "") =
    inr (mkEmail ("a@b.c" +:+ String newline "")) ∧
  is_word_char newline = false ∧
  is_space newline = true ∧
  (∀ s, (∃ u, Username_new s = inr u) ↔
        username_shape s = true ∨
        ∃ s', s = s' +:+ String newline "" ∧ username_shape s' = true) ∧
  (∀ s, (∃ e, Email_new s = inr e) ↔
        email_shape s ∨ ∃ s', s = s' +:+ String newline "" ∧ email_shape s').
Proof.
  split_and!; [done..| |].
  - apply Username_new_accepts.
  - apply Email_new_accepts.
Qed.

(** * What the rest of the code shows *)

(** ** The account repository *)

(** [save] then the three lookups: the account is found by id; it is found
    by email and by username unless its id is the empty string, which the
    test [if aid] takes for a missing entry. *)
Theorem save_then_lookup (r : InMemoryAccountRepo) (account : Account) :
  repo_get (save r account) (acc_id account) = Some account ∧
  get_by_email (save r account) (acc_email account) =
    (if str_truthy (AccountId_value (acc_id account)) then Some account else None) ∧
  get_by_username (save r account) (acc_username account) =
    (if str_truthy (AccountId_value (acc_id account)) then Some account else None).
Proof.
  unfold repo_get, get_by_email, get_by_username, get_indexed, save. simpl.
  rewrite !lookup_insert_eq. by destruct (str_truthy _).
Qed.

(** [save] drops no index entry: once an account is saved again under the
    same id with another email and another username, the old email and the
    old username still find it, as it is now. *)
Theorem save_keeps_old_index (r : InMemoryAccountRepo) (old new : Account) :
  acc_id new = acc_id old →
  AccountId_value (acc_id old) ≠ "" →
  get_by_email (save (save r old) new) (acc_email old) = Some new ∧
  get_by_username (save (save r old) new) (acc_username old) = Some new.
Proof.
  intros Hid Hne.
  unfold get_by_email, get_by_username, get_indexed, save. simpl. rewrite Hid.
  split.
  - destruct (decide (Email_value (acc_email new) = Email_value (acc_email old)))
      as [->|Hd].
    + by rewrite !lookup_insert_eq, str_truthy_ne.
    + rewrite (lookup_insert_ne _ (Email_value (acc_email new))) by done.
      by rewrite !lookup_insert_eq, str_truthy_ne.
  - destruct (decide (Username_value (acc_username new)
                      = Username_value (acc_username old))) as [->|Hd].
    + by rewrite !lookup_insert_eq, str_truthy_ne.
    + rewrite (lookup_insert_ne _ (Username_value (acc_username new))) by done.
      by rewrite !lookup_insert_eq, str_truthy_ne.
Qed.

Lemma save_keeps_old_index_witness :
  acc_id (mkAccount alice (mkEmail "new@x.com") (mkUsername "alice2") ∅) =
    acc_id (mkAccount alice (mkEmail "a@x.com") (mkUsername "alice_uk") ∅) ∧
  AccountId_value
    (acc_id (mkAccount alice (mkEmail "a@x.com") (mkUsername "alice_uk") ∅)) ≠ "" ∧
  get_by_email
    (save (save InMemoryAccountRepo_init
             (mkAccount alice (mkEmail "a@x.com") (mkUsername "alice_uk") ∅))
       (mkAccount alice (mkEmail "new@x.com") (mkUsername "alice2") ∅))
    (acc_email (mkAccount alice (mkEmail "a@x.com") (mkUsername "alice_uk") ∅)) =
    Some (mkAccount alice (mkEmail "new@x.com") (mkUsername "alice2") ∅) ∧
  get_by_username
    (save (save InMemoryAccountRepo_init
             (mkAccount alice (mkEmail "a@x.com") (mkUsername "alice_uk") ∅))
       (mkAccount alice (mkEmail "new@x.com") (mkUsername "alice2") ∅))
    (acc_username (mkAccount alice (mkEmail "a@x.com") (mkUsername "alice_uk") ∅)) =
    Some (mkAccount alice (mkEmail "new@x.com") (mkUsername "alice2") ∅).
Proof.
  split; [reflexivity|]. split; [discriminate|].
  apply (save_keeps_old_index InMemoryAccountRepo_init
           (mkAccount alice (mkEmail "a@x.com") (mkUsername "alice_uk") ∅)
           (mkAccount alice (mkEmail "new@x.com") (mkUsername "alice2") ∅)).
  - reflexivity.
  - discriminate.
Defined.

(** ** The follow repository *)

Lemma follow_add_present r f e :
  follows_edge r f e → follow_add r f e = r.
Proof.
  intros He. unfold follow_add. by rewrite follow_exists_present.
Qed.

Lemma follow_add_absent r f e :
  ¬ follows_edge r f e →
  follow_add r f e =
  mkFollowRepo
    (dd_add (dd_touch (following r) (AccountId_value f))
       (AccountId_value f) (AccountId_value e))
    (dd_add (followers r) (AccountId_value e) (AccountId_value f)).
Proof.
  intros He. unfold follow_add.
  destruct (follow_exists r f e) as [present r'] eqn:Hx.
  assert (present = false) as ->.
  { change present with (present, r').1. rewrite <- Hx, follow_exists_fst.
    by apply bool_decide_eq_false_2. }
  assert (r' = (follow_exists r f e).2) as -> by (by rewrite Hx).
  done.
Qed.

(** [add] puts the edge, and only it, into the [following] index; it puts it
    into the [followers] index unless [following] held it already, in which
    case [add] returns at once. Adding twice is adding once. *)
Theorem add_adds_one_edge (r : InMemoryFollowRepo) (f e : AccountId) :
  (∀ x y, follows_edge (follow_add r f e) x y
          ↔ follows_edge r x y ∨ (x = f ∧ y = e)) ∧
  (∀ x y, followed_by (follow_add r f e) x y
          ↔ followed_by r x y ∨ (x = f ∧ y = e ∧ ¬ follows_edge r f e)) ∧
  follow_add (follow_add r f e) f e = follow_add r f e.
Proof.
  destruct (decide (follows_edge r f e)) as [He|He].
  - rewrite !follow_add_present by done. split_and!; [| |done].
    + intros x y. split; [by left|]. by intros [?|[-> ->]].
    + intros x y. split; [by left|]. by intros [?|(_ & _ & ?)].
  - assert (follows_edge (follow_add r f e) f e) as Hnow.
    { rewrite follow_add_absent by done. unfold follows_edge. simpl.
      rewrite dd_get_add, decide_True by done. set_solver. }
    split_and!; [| |by apply follow_add_present].
    + rewrite follow_add_absent by done.
      intros x y. unfold follows_edge. simpl. rewrite dd_get_add, !dd_get_touch.
      case_decide as Hx.
      * apply AccountId_value_inj in Hx. subst x.
        rewrite elem_of_union, elem_of_singleton. split.
        -- intros [Heq|Hin]; [right|by left].
           split; [done|by apply AccountId_value_inj].
        -- intros [Hin|[_ ->]]; [by right|by left].
      * split; [by left|]. intros [Hin|[-> ->]]; done.
    + rewrite follow_add_absent by done.
      intros x y. unfold followed_by. simpl. rewrite dd_get_add.
      case_decide as Hy.
      * apply AccountId_value_inj in Hy. subst y.
        rewrite elem_of_union, elem_of_singleton. split.
        -- intros [Heq|Hin]; [right|by left].
           split_and!; [by apply AccountId_value_inj|done|done].
        -- intros [Hin|(-> & _ & _)]; [by right|by left].
      * split; [by left|]. intros [Hin|(-> & -> & _)]; done.
Qed.

Lemma dd_discard_idem (d : gmap string (gset string)) (k v : string) :
  dd_discard (dd_discard d k v) k v = dd_discard d k v.
Proof.
  unfold dd_discard at 1. rewrite dd_get_discard, decide_True by done.
  unfold dd_discard. rewrite insert_insert_eq. f_equal. set_solver.
Qed.

(** [remove] takes the edge, and only it, out of both indexes, whether it
    was there or not. Removing twice is removing once. *)
Theorem remove_removes_one_edge (r : InMemoryFollowRepo) (f e : AccountId) :
  (∀ x y, follows_edge (follow_remove r f e) x y
          ↔ follows_edge r x y ∧ ¬ (x = f ∧ y = e)) ∧
  (∀ x y, followed_by (follow_remove r f e) x y
          ↔ followed_by r x y ∧ ¬ (x = f ∧ y = e)) ∧
  follow_remove (follow_remove r f e) f e = follow_remove r f e.
Proof.
  split_and!.
  - intros x y. unfold follows_edge, follow_remove. simpl.
    rewrite dd_get_discard. case_decide as Hx.
    + apply AccountId_value_inj in Hx. subst x.
      rewrite elem_of_difference, elem_of_singleton. split.
      * intros [Hin Hne]. split; [done|]. intros [_ ->]. done.
      * intros [Hin Hne]. split; [done|]. intros Heq.
        apply Hne. split; [done|by apply AccountId_value_inj].
    + split; [|by intros [? _]]. intros Hin. split; [done|].
      intros [-> _]. done.
  - intros x y. unfold followed_by, follow_remove. simpl.
    rewrite dd_get_discard. case_decide as Hy.
    + apply AccountId_value_inj in Hy. subst y.
      rewrite elem_of_difference, elem_of_singleton. split.
      * intros [Hin Hne]. split; [done|]. intros [-> _]. done.
      * intros [Hin Hne]. split; [done|]. intros Heq.
        apply Hne. split; [by apply AccountId_value_inj|done].
    + split; [|by intros [? _]]. intros Hin. split; [done|].
      intros [_ ->]. done.
  - unfold follow_remove. simpl. by rewrite !dd_discard_idem.
Qed.

(** Adding an edge that neither index holds and removing it again gives
    back the sets there were. *)
Theorem add_then_remove (r : InMemoryFollowRepo) (f e : AccountId) :
  ¬ follows_edge r f e → ¬ followed_by r f e →
  same_sets r (follow_remove (follow_add r f e) f e).
Proof.
  intros He Hb. rewrite follow_add_absent by done. intros x.
  unfold follow_remove, follows_edge, followed_by in *. simpl.
  rewrite !dd_get_discard, !dd_get_add, !dd_get_touch.
  split; case_decide; subst; rewrite ?decide_True by done; set_solver.
Qed.

Lemma add_then_remove_witness :
  ¬ follows_edge InMemoryFollowRepo_init alice bob ∧
  ¬ followed_by InMemoryFollowRepo_init alice bob ∧
  same_sets InMemoryFollowRepo_init
    (follow_remove (follow_add InMemoryFollowRepo_init alice bob) alice bob).
Proof.
  assert (¬ follows_edge InMemoryFollowRepo_init alice bob) as He by compute_done.
  assert (¬ followed_by InMemoryFollowRepo_init alice bob) as Hb by compute_done.
  split; [exact He|]. split; [exact Hb|].
  exact (add_then_remove InMemoryFollowRepo_init alice bob He Hb).
Defined.

(** [exists] is not read-only. Its answer is whether [following] holds the
    edge, and it changes no set; but for a follower that is no key of
    [following] yet it inserts the key, with the empty set, so the
    dictionary grows by one entry. *)
Theorem exists_inserts_the_follower (r : InMemoryFollowRepo) (f e : AccountId) :
  ((follow_exists r f e).1 = true ↔ follows_edge r f e) ∧
  same_sets r (follow_exists r f e).2 ∧
  (is_Some (following r !! AccountId_value f) → (follow_exists r f e).2 = r) ∧
  (following r !! AccountId_value f = None →
   (follow_exists r f e).1 = false ∧
   following (follow_exists r f e).2 = <[AccountId_value f := ∅]> (following r) ∧
   size (following (follow_exists r f e).2) = S (size (following r))).
Proof.
  split_and!.
  - rewrite follow_exists_fst. apply bool_decide_eq_true.
  - intros x. simpl. by rewrite dd_get_touch.
  - intros Hk. unfold follow_exists. simpl. rewrite dd_touch_present by done.
    by destruct r.
  - intros Hk. split_and!.
    + rewrite follow_exists_fst. apply bool_decide_eq_false_2.
      unfold dd_get. rewrite Hk. simpl. set_solver.
    + simpl. unfold dd_touch. by rewrite Hk.
    + simpl. unfold dd_touch. rewrite Hk. by apply map_size_insert_None.
Qed.

Lemma index_consistent_init : index_consistent InMemoryFollowRepo_init.
Proof. intros x y. unfold dd_get. simpl. rewrite !lookup_empty. set_solver. Qed.

(** If the two indexes hold the same edges, they still do after [add],
    [remove], [exists], [followers_of] and [following_of]. *)
Theorem indexes_stay_consistent (r : InMemoryFollowRepo) (f e : AccountId) :
  index_consistent r →
  index_consistent (follow_add r f e) ∧
  index_consistent (follow_remove r f e) ∧
  index_consistent (follow_exists r f e).2 ∧
  index_consistent (followers_of r f).2 ∧
  index_consistent (following_of r f).2.
Proof.
  intros Hi. split_and!.
  - destruct (decide (follows_edge r f e)) as [He|He].
    + by rewrite follow_add_present.
    + rewrite follow_add_absent by done. by apply index_consistent_added.
  - by apply index_consistent_removed.
  - by apply index_consistent_looked_up.
  - intros x y. simpl. rewrite dd_get_touch. apply Hi.
  - intros x y. simpl. rewrite dd_get_touch. apply Hi.
Qed.

Lemma indexes_stay_consistent_witness :
  index_consistent InMemoryFollowRepo_init ∧
  index_consistent (follow_add InMemoryFollowRepo_init alice bob) ∧
  index_consistent (follow_remove InMemoryFollowRepo_init alice bob) ∧
  index_consistent (follow_exists InMemoryFollowRepo_init alice bob).2 ∧
  index_consistent (followers_of InMemoryFollowRepo_init alice).2 ∧
  index_consistent (following_of InMemoryFollowRepo_init alice).2.
Proof.
  split; [exact index_consistent_init|].
  exact (indexes_stay_consistent InMemoryFollowRepo_init alice bob
           index_consistent_init).
Defined.

Lemma sorted_spec (s : gset string) :
  StronglySorted String.le (sorted s) ∧ NoDup (sorted s) ∧
  ∀ x, x ∈ sorted s ↔ x ∈ s.
Proof.
  unfold sorted. split_and!.
  - apply StronglySorted_merge_sort; apply _.
  - rewrite merge_sort_Permutation. apply NoDup_elements.
  - intros x. rewrite merge_sort_Permutation. apply elem_of_elements.
Qed.

(** [following_of] and [followers_of] list each followee, and each
    follower, once, in ascending order of the ids, and change no set. *)
Theorem listings_are_sorted (r : InMemoryFollowRepo) (account : AccountId) :
  (StronglySorted (λ a b, String.le (AccountId_value a) (AccountId_value b))
     (following_of r account).1 ∧
   NoDup (following_of r account).1 ∧
   (∀ y, y ∈ (following_of r account).1 ↔ follows_edge r account y) ∧
   same_sets r (following_of r account).2) ∧
  (StronglySorted (λ a b, String.le (AccountId_value a) (AccountId_value b))
     (followers_of r account).1 ∧
   NoDup (followers_of r account).1 ∧
   (∀ x, x ∈ (followers_of r account).1 ↔ followed_by r x account) ∧
   same_sets r (followers_of r account).2).
Proof.
  assert (Inj (=) (=) mkAccountId) as Hinj by (intros ?? [=]; done).
  split.
  - destruct (sorted_spec (dd_get (following r) (AccountId_value account)))
      as (Hs & Hn & Hin).
    unfold following_of, follows_edge. simpl. split_and!.
    + by apply (StronglySorted_fmap _ String.le).
    + by apply (NoDup_fmap_2 _).
    + intros [y]. rewrite (list_elem_of_fmap_inj _). apply Hin.
    + intros x. simpl. by rewrite dd_get_touch.
  - destruct (sorted_spec (dd_get (followers r) (AccountId_value account)))
      as (Hs & Hn & Hin).
    unfold followers_of, followed_by. simpl. split_and!.
    + by apply (StronglySorted_fmap _ String.le).
    + by apply (NoDup_fmap_2 _).
    + intros [x]. rewrite (list_elem_of_fmap_inj _). apply Hin.
    + intros x. simpl. by rewrite dd_get_touch.
Qed.

(** ** The event bus *)

Lemma dict_get_set {K V : Type} `{EqDecision K} (d : list (K * V)) (k k' : K)
  (v : V) :
  dict_get (dict_set d k v) k' = if decide (k' = k) then Some v else dict_get d k'.
Proof.
  induction d as [|[k0 v0] d IH]; simpl.
  - repeat case_decide; congruence.
  - repeat (case_decide; simpl); congruence.
Qed.

(** [subscribe] puts the handler last among the subscribers of the event
    type and leaves the other types alone: an event is delivered to the
    subscribers of its own type, in the order they subscribed. *)
Theorem subscribe_appends (bus : EventBus) (event_type : EventType)
  (handler : PolicyFn) (ev : Event) :
  subscribers_of (subscribe bus event_type handler) ev =
  if decide (type_of_event ev = event_type)
  then subscribers_of bus ev ++ [handler]
  else subscribers_of bus ev.
Proof.
  unfold subscribers_of, subscribe. simpl. rewrite dict_get_set.
  case_decide as Ht; [|done]. by rewrite Ht.
Qed.

(** ** One [handle] call *)

Lemma handle_effect rnd app cmd :
  match handle 2 rnd 0 app cmd with
  | Returned events app' _ => effect rnd app events app'
  | Raised _ app' _ => app' = app
  | OutOfFuel => False
  end.
Proof.
  destruct cmd as [e u|f e|b a|f e|cls].
  - destruct (truthy (get_by_email (accounts app) e)
              || truthy (get_by_username (accounts app) u)) eqn:Hdup.
    + handle_plainly ltac:(by apply register_duplicate).
      by apply effect_duplicate.
    + handle_plainly ltac:(by apply register_new). by constructor.
  - destruct (decide (f = e)) as [->|Hne].
    { handle_plainly ltac:(apply follow_self). apply effect_rejected. by left. }
    destruct (repo_get (accounts app) f) as [af|] eqn:Hf; cycle 1.
    { handle_plainly ltac:(apply follow_unknown; eauto).
      apply effect_rejected. eauto. }
    destruct (repo_get (accounts app) e) as [ae|] eqn:He; cycle 1.
    { handle_plainly ltac:(apply follow_unknown; eauto).
      apply effect_rejected. eauto. }
    destruct (decide (e ∈ acc_blocked af)) as [Hb1|Hb1].
    { handle_plainly ltac:(eapply follow_blocked; eauto).
      apply effect_rejected. do 3 right. exists af, ae. eauto. }
    destruct (decide (f ∈ acc_blocked ae)) as [Hb2|Hb2].
    { handle_plainly ltac:(eapply follow_blocked; eauto).
      apply effect_rejected. do 3 right. exists af, ae. eauto. }
    destruct (decide (edge app f e)) as [Hedge|Hedge].
    { handle_plainly ltac:(by eapply follow_present). by constructor. }
    handle_plainly ltac:(by eapply follow_new).
    by eapply effect_followed.
  - destruct (handle_block_account 0 rnd 0 app b a)
      as (evs & app1 & Hb & [[-> Hh]|Hh]).
    + rewrite Hh. unfold _handle_block_account in Hb.
      repeat case_match; simplify_eq; constructor.
    + destruct Hh as (blocker & evs2 & app2 & Hg & -> & Hr & Hp & _ & ->).
      assert (b ≠ a) as Hne.
      { intros ->. rewrite block_self in Hb. discriminate. }
      destruct (repo_get (accounts app) a) as [blocked|] eqn:Ha; cycle 1.
      { rewrite block_unknown in Hb by eauto. discriminate. }
      rewrite (block_known app b a blocker blocked) in Hb by done.
      assert (app1 = with_accounts app
                (save (mutated (accounts app) b (blocking blocker a))
                   (blocking blocker a))) as Happ1 by congruence.
      eapply (effect_blocked rnd app b a blocker blocked app1); [done..|].
      clear Hb Happ1.
      destruct (decide (edge app1 a (acc_id blocker))) as [Hedge|Hedge].
      * left. split; [done|]. rewrite remove_present in Hr by done.
        by injection Hr as <- <-.
      * right. split; [done|]. rewrite remove_absent in Hr by done.
        by injection Hr as <- <-.
  - destruct (decide (edge app f e)) as [Hedge|Hedge].
    + handle_plainly ltac:(by apply remove_present). by constructor.
    + handle_plainly ltac:(by apply remove_absent). by constructor.
  - done.
Qed.

(** Reachability, one effect at a time. *)
Lemma reachable_effect_ind (P : Application → Prop) :
  P initial →
  (∀ rnd app events app',
     reachable app → fresh_uuid app rnd → P app →
     effect rnd app events app' → P app') →
  ∀ app, reachable app → P app.
Proof.
  intros Hinit Hstep app.
  induction 1 as [|fuel rnd app cmd events app' log Hr IH Hfresh Hh
                  |fuel rnd app cmd e app' log Hr IH Hfresh Hh].
  - done.
  - pose proof (handle_effect rnd app cmd) as He.
    destruct (handle_fuel fuel rnd 0 app cmd) as [Hf|Hf]; [congruence|].
    rewrite <- Hf, Hh in He. by eapply Hstep.
  - pose proof (handle_effect rnd app cmd) as He.
    destruct (handle_fuel fuel rnd 0 app cmd) as [Hf|Hf]; [congruence|].
    rewrite <- Hf, Hh in He. by subst app'.
Qed.

Lemma same_observable_refl app : same_observable app app.
Proof. by repeat split. Qed.

(** A [handle] call that returns nothing but refusals, or no event at all,
    or raises, leaves the accounts, the read model and every set of the
    follow repository as they were. *)
Theorem refusals_change_nothing (rnd : string) (app : Application)
  (cmd : Command) (n : nat) :
  match handle (S (S n)) rnd 0 app cmd with
  | Returned events app' _ => Forall is_refusal events → same_observable app app'
  | Raised _ app' _ => app' = app
  | OutOfFuel => False
  end.
Proof.
  rewrite handle_fuel_2. pose proof (handle_effect rnd app cmd) as He.
  destruct (handle 2 rnd 0 app cmd) as [events app' log|e app' log|]; [|done..].
  intros Hall.
  destruct He as [email username Hdup|f e reason Hwhy| |f e Hedge|email username Hdup
                  |f e af ae ? ? ? ? ? ?
                  |f e Hedge|b a blocker blocked app1 app2 ? ? ? ? ?];
    try (apply Forall_cons_1 in Hall as [[] _]).
  - apply same_observable_refl.
  - apply same_observable_refl.
  - apply same_observable_refl.
  - repeat split; simpl; by rewrite ?dd_get_touch.
Qed.

(** The accounts after an effect: as they were, or with the registered
    account, or with the blocker blocking one more account. *)
Lemma effect_accounts rnd app events app' :
  accounts_wf (accounts app) →
  effect rnd app events app' →
  accounts app' = accounts app ∨
  (∃ email username,
     events = [AccountRegistered (mkAccountId rnd) email username] ∧
     truthy (get_by_email (accounts app) email)
     || truthy (get_by_username (accounts app) username) = false ∧
     accounts app' =
       save (accounts app) (mkAccount (mkAccountId rnd) email username ∅)) ∨
  (∃ b a blocker,
     events = [AccountBlocked b a] ∧ b ≠ a ∧
     repo_get (accounts app) b = Some blocker ∧
     is_Some (repo_get (accounts app) a) ∧
     accounts app' =
       mkAccountRepo
         (<[AccountId_value b := blocking blocker a]> (by_id (accounts app)))
         (by_email (accounts app)) (by_username (accounts app))).
Proof.
  intros Hwf He.
  destruct He as [email username Hdup|f e reason Hwhy| |f e Hedge|email username Hdup
                  |f e af ae ? ? ? ? ? ?
                  |f e Hedge|b a blocker blocked app1 app2 Hne Hb Ha Happ1 Happ2];
    try (by left).
  - right. left. by exists email, username.
  - right. right. exists b, a, blocker.
    rewrite (repo_get_id _ _ _ Hwf Hb). split_and!; [done..|].
    rewrite save_blocking in Happ1 by done.
    destruct Happ2 as [[_ ->]|[_ ->]]; by subst app1.
Qed.

(** The edges after an effect: edges there were, and the edge followed. *)
Lemma effect_edges rnd app events app' x y :
  effect rnd app events app' →
  edge app' x y →
  edge app x y ∨
  (events = [AccountFollowed x y] ∧ x ≠ y ∧
   is_Some (repo_get (accounts app) x) ∧ is_Some (repo_get (accounts app) y)).
Proof.
  intros He.
  destruct He as [email username Hdup|f e reason Hwhy| |f e Hedge|email username Hdup
                  |f e af ae ? ? ? ? ? ?
                  |f e Hedge|b a blocker blocked app1 app2 Hne Hb Ha Happ1 Happ2];
    try (by left).
  - unfold edge. simpl. rewrite dd_get_touch. by left.
  - rewrite follow_add_new by done. unfold edge. simpl.
    rewrite dd_get_add, !dd_get_touch. case_decide as Hx; [|by left].
    rewrite elem_of_union, elem_of_singleton.
    apply AccountId_value_inj in Hx. subst x.
    intros [Heq|Hin]; [|by left]. apply AccountId_value_inj in Heq. subst y.
    right. by split_and!.
  - unfold edge. simpl. rewrite dd_get_discard. case_decide as Hx; [|by left].
    rewrite elem_of_difference. intros [Hin _]. left. by rewrite <- Hx.
  - destruct Happ2 as [[_ ->]|[_ ->]]; subst app1; unfold edge; simpl.
    + rewrite dd_get_discard. case_decide as Hx; [|by left].
      rewrite elem_of_difference. intros [Hin _]. left. by rewrite <- Hx.
    + rewrite dd_get_touch. by left.
Qed.

(** A persisted account stays persisted, with its identity and at least its
    blocks. *)
Lemma effect_accounts_kept rnd app events app' :
  accounts_wf (accounts app) → by_id (accounts app) !! rnd = None →
  effect rnd app events app' → accounts_kept app app'.
Proof.
  intros Hwf Hfresh He k acc Hk.
  destruct (effect_accounts rnd app events app' Hwf He)
    as [->|[(email & username & _ & _ & ->)|(b & a & blocker & _ & _ & Hb & _ & ->)]].
  - by exists acc.
  - exists acc. split; [|done]. unfold save. simpl.
    rewrite lookup_insert_ne; [done|congruence].
  - simpl. destruct (decide (AccountId_value b = k)) as [<-|Hne].
    + rewrite lookup_insert_eq. unfold repo_get in Hb. simplify_eq.
      eexists. split; [done|]. simpl. split_and!; [done..|set_solver].
    + rewrite lookup_insert_ne by done. by exists acc.
Qed.

(** No command deletes an account, changes its id, email or username, or
    takes an id out of its blocked set. *)
Theorem accounts_are_kept (app : Application) (rnd : string) (cmd : Command)
  (n : nat) :
  reachable app → fresh_uuid app rnd →
  match handle (S (S n)) rnd 0 app cmd with
  | Returned _ app' _ => accounts_kept app app'
  | Raised _ app' _ => accounts_kept app app'
  | OutOfFuel => False
  end.
Proof.
  intros Hr [_ Hfresh]. rewrite handle_fuel_2.
  pose proof (handle_effect rnd app cmd) as He.
  pose proof (inv_accounts app (reachable_inv app Hr)) as Hwf.
  destruct (handle 2 rnd 0 app cmd) as [events app' log|e app' log|]; simpl.
  - by eapply effect_accounts_kept.
  - subst app'. intros k acc Hk. by exists acc.
  - done.
Qed.

Lemma accounts_are_kept_witness :
  reachable demo_following ∧ fresh_uuid demo_following "d" ∧
  match handle 2 "d" 0 demo_following (BlockAccount bob alice) with
  | Returned _ app' _ => accounts_kept demo_following app'
  | Raised _ app' _ => accounts_kept demo_following app'
  | OutOfFuel => False
  end.
Proof.
  assert (fresh_uuid demo_following "d") as Hf
    by (split; [discriminate|vm_compute; reflexivity]).
  split; [exact demo_following_reachable|]. split; [exact Hf|].
  exact (accounts_are_kept demo_following "d" (BlockAccount bob alice) 0
           demo_following_reachable Hf).
Defined.

(** No two persisted accounts share an email or a username, and each is
    held under its own id. *)
Theorem identities_are_unique (app : Application) :
  reachable app →
  ∀ k1 k2 a1 a2,
    by_id (accounts app) !! k1 = Some a1 →
    by_id (accounts app) !! k2 = Some a2 →
    acc_id a1 = mkAccountId k1 ∧
    (acc_email a1 = acc_email a2 ∨ acc_username a1 = acc_username a2 →
     k1 = k2 ∧ a1 = a2).
Proof.
  intros Hr k1 k2 a1 a2 H1 H2.
  pose proof (inv_accounts app (reachable_inv app Hr)) as Hwf.
  destruct (wf_key _ Hwf _ _ H1) as (Hid1 & _ & He1 & Hu1).
  destruct (wf_key _ Hwf _ _ H2) as (_ & _ & He2 & Hu2).
  split; [by apply AccountId_value_inj|].
  intros [Heq|Heq]; rewrite Heq in *; assert (k1 = k2) as -> by congruence;
    split; congruence.
Qed.

Lemma identities_are_unique_witness :
  reachable demo_registered ∧
  ∀ k1 k2 a1 a2,
    by_id (accounts demo_registered) !! k1 = Some a1 →
    by_id (accounts demo_registered) !! k2 = Some a2 →
    acc_id a1 = mkAccountId k1 ∧
    (acc_email a1 = acc_email a2 ∨ acc_username a1 = acc_username a2 →
     k1 = k2 ∧ a1 = a2).
Proof.
  split; [exact demo_registered_reachable|].
  exact (identities_are_unique demo_registered demo_registered_reachable).
Defined.

Lemma accounts_kept_is_Some app app' x :
  accounts_kept app app' →
  is_Some (repo_get (accounts app) x) → is_Some (repo_get (accounts app') x).
Proof.
  intros Hk [acc Hx]. destruct (Hk _ _ Hx) as (acc' & Hx' & _). by exists acc'.
Qed.

(** Both ends of every edge are persisted accounts. *)
Theorem edges_join_accounts (app : Application) :
  reachable app → edges_between_accounts app.
Proof.
  revert app. apply reachable_effect_ind.
  - intros f e. unfold edge, dd_get. simpl. rewrite lookup_empty. set_solver.
  - intros rnd app events app' Hr [_ Hfresh] IH He f e Hedge.
    pose proof (inv_accounts app (reachable_inv app Hr)) as Hwf.
    pose proof (effect_accounts_kept rnd app events app' Hwf Hfresh He) as Hk.
    destruct (effect_edges rnd app events app' f e He Hedge)
      as [Hold|(_ & _ & Hf & He')].
    + destruct (IH f e Hold). split; by eapply accounts_kept_is_Some.
    + split; by eapply accounts_kept_is_Some.
Qed.

Lemma edges_join_accounts_witness :
  reachable demo_following ∧ edges_between_accounts demo_following.
Proof.
  split; [exact demo_following_reachable|].
  exact (edges_join_accounts demo_following demo_following_reachable).
Defined.

(** No account blocks itself, and every blocked id is that of a persisted
    account. *)
Theorem blocks_join_accounts (app : Application) :
  reachable app → blocks_between_accounts app.
Proof.
  revert app. apply reachable_effect_ind.
  - intros x acc y. unfold repo_get. simpl. by rewrite lookup_empty.
  - intros rnd app events app' Hr [_ Hfresh] IH He x acc y Hx Hy.
    pose proof (inv_accounts app (reachable_inv app Hr)) as Hwf.
    pose proof (effect_accounts_kept rnd app events app' Hwf Hfresh He) as Hk.
    assert (∀ acc0, repo_get (accounts app) x = Some acc0 →
                    y ∈ acc_blocked acc0 →
                    y ≠ x ∧ is_Some (repo_get (accounts app') y)) as Hold.
    { intros acc0 Hx0 Hy0. destruct (IH x acc0 y Hx0 Hy0) as [Hne Hsome].
      split; [done|]. by eapply accounts_kept_is_Some. }
    destruct (effect_accounts rnd app events app' Hwf He)
      as [Heq|[(email & username & _ & _ & Heq)
              |(b & a & blocker & _ & Hne & Hb & Ha & Heq)]].
    + rewrite Heq in Hx. by eapply Hold.
    + rewrite Heq in Hx. unfold repo_get, save in Hx. simpl in Hx.
      destruct (decide (rnd = AccountId_value x)) as [Hrnd|Hrnd].
      * rewrite Hrnd, lookup_insert_eq in Hx. simplify_eq. simpl in Hy.
        set_solver.
      * rewrite lookup_insert_ne in Hx by done. by eapply Hold.
    + rewrite Heq in Hx. unfold repo_get in Hx. simpl in Hx.
      destruct (decide (AccountId_value b = AccountId_value x)) as [Hbx|Hbx].
      * rewrite Hbx, lookup_insert_eq in Hx. simplify_eq. simpl in Hy.
        apply AccountId_value_inj in Hbx. subst x.
        apply elem_of_union in Hy as [Hy|Hy]; [|by eapply Hold].
        apply elem_of_singleton in Hy. subst y.
        split; [done|]. by eapply accounts_kept_is_Some.
      * rewrite lookup_insert_ne in Hx by done. by eapply Hold.
Qed.

Lemma blocks_join_accounts_witness :
  reachable demo_blocked ∧ blocks_between_accounts demo_blocked.
Proof.
  split; [exact demo_blocked_reachable|].
  exact (blocks_join_accounts demo_blocked demo_blocked_reachable).
Defined.

Lemma read_model_of_edge app f e :
  app_inv app →
  (AccountId_value e ∈ dd_get (read_following app) (AccountId_value f)
   ↔ edge app f e) ∧
  (AccountId_value f ∈ dd_get (read_followers app) (AccountId_value e)
   ↔ edge app f e).
Proof.
  intros Hinv.
  destruct (inv_read_model app Hinv (AccountId_value f)) as [-> _].
  destruct (inv_read_model app Hinv (AccountId_value e)) as [_ ->].
  split; [done|]. symmetry. apply (inv_index app Hinv).
Qed.

(** The events [handle] returns are facts of the state it leaves: the
    registered account is found by id, by email and by username; a
    duplicate is one; the followed edge is in the repository and in the
    read model, the removed one in neither; a rejected follow has one of
    the three grounds; after [AccountBlocked] the blocker blocks the
    account and is not followed by it. *)
Theorem events_are_facts (app : Application) (rnd : string) (cmd : Command)
  (n : nat) (events : list Event) (app' : Application) (log : list Call) :
  reachable app → fresh_uuid app rnd →
  handle (S (S n)) rnd 0 app cmd = Returned events app' log →
  Forall (event_holds app') events.
Proof.
  intros Hr Hfresh Hh.
  pose proof (reachable_inv app' (reachable_returned _ _ _ _ _ _ _ Hr Hfresh Hh))
    as Hinv'.
  pose proof (inv_accounts app (reachable_inv app Hr)) as Hwf.
  rewrite handle_fuel_2 in Hh. pose proof (handle_effect rnd app cmd) as He.
  rewrite Hh in He. destruct Hfresh as [Hne Hfresh].
  destruct He as [email username Hdup|f e reason Hwhy| |f e Hedge|email username Hdup
                  |f e af ae ? ? ? ? ? Hedge|f e Hedge
                  |b a blocker blocked app1 app2 Hba Hb Ha Happ1 Happ2];
    try (by apply Forall_nil); apply Forall_singleton; cbn [event_holds].
  - by apply (taken_truthy app email username Hwf).
  - done.
  - split_and!.
    + unfold repo_get, save. simpl. by rewrite lookup_insert_eq.
    + unfold get_by_email, get_indexed, save. simpl.
      by rewrite !lookup_insert_eq, str_truthy_ne.
    + unfold get_by_username, get_indexed, save. simpl.
      by rewrite !lookup_insert_eq, str_truthy_ne.
  - assert (edge (_project
                    (with_follows app
                       (follow_add (follow_exists (follows app) f e).2 f e))
                    (AccountFollowed f e)) f e) as Hnow.
    { rewrite follow_add_new by done. unfold edge. simpl.
      rewrite dd_get_add, decide_True by done. set_solver. }
    destruct (read_model_of_edge _ f e Hinv') as [Hfing Hfers].
    split; [done|]. split; [by apply Hfing|by apply Hfers].
  - assert (¬ edge (_project (with_follows app (follow_remove (follows app) f e))
                      (FollowerRemoved f e "Blocked")) f e) as Hnow.
    { unfold edge. simpl. rewrite dd_get_discard, decide_True by done.
      set_solver. }
    destruct (read_model_of_edge _ f e Hinv') as [Hfing Hfers].
    split; [done|]. split; [by rewrite Hfing|by rewrite Hfers].
  - pose proof (repo_get_id _ _ _ Hwf Hb) as Hid. rewrite Hid in *.
    rewrite save_blocking in Happ1 by done.
    assert (accounts app2 = accounts app1) as Hacc
      by (destruct Happ2 as [[_ ->]|[_ ->]]; done).
    split; [done|]. split_and!.
    + rewrite Hacc, Happ1. unfold repo_get. simpl.
      rewrite lookup_insert_ne; [by eexists|].
      intros Heq. by apply Hba, AccountId_value_inj.
    + exists (blocking blocker a). split; [|apply elem_of_blocking].
      rewrite Hacc, Happ1. unfold repo_get. simpl. by rewrite lookup_insert_eq.
    + destruct Happ2 as [[_ ->]|[Hno ->]]; unfold edge; simpl.
      * rewrite dd_get_discard, decide_True by done. set_solver.
      * by rewrite dd_get_touch.
Qed.

Lemma events_are_facts_witness :
  reachable demo_following ∧ fresh_uuid demo_following "d" ∧
  handle 2 "d" 0 demo_following (BlockAccount bob alice) =
    Returned [AccountBlocked bob alice] demo_blocked
      [call_handle 0 (BlockAccount bob alice);
       call_publish 0 (AccountBlocked bob alice);
       call_subscriber 0 fn_on_account_blocked (AccountBlocked bob alice);
       call_handle 1 (RemoveFollower alice bob);
       call_publish 1 (FollowerRemoved alice bob "Blocked");
       call_subscriber 1 fn_project (FollowerRemoved alice bob "Blocked")] ∧
  Forall (event_holds demo_blocked) [AccountBlocked bob alice].
Proof.
  assert (fresh_uuid demo_following "d") as Hf
    by (split; [discriminate|vm_compute; reflexivity]).
  assert (handle 2 "d" 0 demo_following (BlockAccount bob alice) =
          Returned [AccountBlocked bob alice] demo_blocked
            [call_handle 0 (BlockAccount bob alice);
             call_publish 0 (AccountBlocked bob alice);
             call_subscriber 0 fn_on_account_blocked (AccountBlocked bob alice);
             call_handle 1 (RemoveFollower alice bob);
             call_publish 1 (FollowerRemoved alice bob "Blocked");
             call_subscriber 1 fn_project (FollowerRemoved alice bob "Blocked")])
    as Hh by (vm_compute; reflexivity).
  split; [exact demo_following_reachable|]. split; [exact Hf|].
  split; [exact Hh|].
  exact (events_are_facts demo_following "d" (BlockAccount bob alice) 0 _ _ _
           demo_following_reachable Hf Hh).
Defined.

(** ** Commands in sequence *)

(** Following twice: between two distinct persisted accounts neither of
    which blocks the other, the first [FollowAccount] returns
    [AccountFollowed], or nothing if the edge was there, and leaves the
    edge; the second returns nothing, publishes nothing and changes
    nothing. *)
Theorem follow_twice (app : Application) (f e : AccountId) (af ae : Account)
  (rnd1 rnd2 : string) (n : nat) :
  f ≠ e →
  repo_get (accounts app) f = Some af →
  repo_get (accounts app) e = Some ae →
  e ∉ acc_blocked af → f ∉ acc_blocked ae →
  ∃ events app1 log1,
    handle (S (S n)) rnd1 0 app (FollowAccount f e) = Returned events app1 log1 ∧
    (if decide (edge app f e) then events = [] ∧ app1 = app
     else events = [AccountFollowed f e]) ∧
    edge app1 f e ∧
    handle (S (S n)) rnd2 0 app1 (FollowAccount f e) =
      Returned [] app1 [call_handle 0 (FollowAccount f e)].
Proof.
  intros Hne Hf He Hb1 Hb2. destruct (decide (edge app f e)) as [Hedge|Hedge].
  - exists [], app, [call_handle 0 (FollowAccount f e)].
    assert (∀ rnd, handle (S (S n)) rnd 0 app (FollowAccount f e) =
                   Returned [] app [call_handle 0 (FollowAccount f e)]) as Hh.
    { intros rnd. handle_plainly ltac:(by eapply follow_present). done. }
    by rewrite !Hh.
  - eexists _, _, _. split.
    { handle_plainly ltac:(by eapply follow_new). done. }
    split; [done|]. cbn [foldl].
    match goal with |- edge ?s _ _ ∧ _ => set (app1 := s) end.
    assert (edge app1 f e) as Hnow.
    { subst app1. rewrite follow_add_new by done. unfold edge. simpl.
      rewrite dd_get_add, decide_True by done. set_solver. }
    split; [done|].
    handle_plainly ltac:(by eapply (follow_present app1 f e af ae)). done.
Qed.

Lemma follow_twice_witness :
  alice ≠ bob ∧
  repo_get (accounts demo_registered) alice =
    Some (mkAccount alice (mkEmail "a@x.com") (mkUsername "alice_uk") ∅) ∧
  repo_get (accounts demo_registered) bob =
    Some (mkAccount bob (mkEmail "b@x.com") (mkUsername "bob_uk") ∅) ∧
  (bob ∉ (∅ : gset AccountId)) ∧ (alice ∉ (∅ : gset AccountId)) ∧
  ∃ events app1 log1,
    handle 2 "c" 0 demo_registered (FollowAccount alice bob) =
      Returned events app1 log1 ∧
    (if decide (edge demo_registered alice bob) then events = [] ∧ app1 = demo_registered
     else events = [AccountFollowed alice bob]) ∧
    edge app1 alice bob ∧
    handle 2 "d" 0 app1 (FollowAccount alice bob) =
      Returned [] app1 [call_handle 0 (FollowAccount alice bob)].
Proof.
  assert (alice ≠ bob) as Hne by discriminate.
  assert (repo_get (accounts demo_registered) alice =
          Some (mkAccount alice (mkEmail "a@x.com") (mkUsername "alice_uk") ∅))
    as Ha by (vm_compute; reflexivity).
  assert (repo_get (accounts demo_registered) bob =
          Some (mkAccount bob (mkEmail "b@x.com") (mkUsername "bob_uk") ∅))
    as Hb by (vm_compute; reflexivity).
  assert (bob ∉ (∅ : gset AccountId)) as H1 by compute_done.
  assert (alice ∉ (∅ : gset AccountId)) as H2 by compute_done.
  split; [exact Hne|]. split; [exact Ha|]. split; [exact Hb|].
  split; [exact H1|]. split; [exact H2|].
  exact (follow_twice demo_registered alice bob _ _ "c" "d" 0 Hne Ha Hb H1 H2).
Defined.

(** After [b] has blocked [a], neither can follow the other: both
    [FollowAccount] commands are rejected for a blocked relationship and
    change nothing. *)
Theorem block_forbids_following (app : Application) (a b : AccountId)
  (rnd1 rnd2 rnd3 : string) (n : nat) :
  reachable app →
  a ≠ b →
  is_Some (repo_get (accounts app) a) →
  is_Some (repo_get (accounts app) b) →
  ∃ app1 log1,
    handle (S (S n)) rnd1 0 app (BlockAccount b a) =
      Returned [AccountBlocked b a] app1 log1 ∧
    handle (S (S n)) rnd2 0 app1 (FollowAccount a b) =
      Returned [FollowRejectedBlocked a b "Blocked relationship"] app1
        [call_handle 0 (FollowAccount a b);
         call_publish 0 (FollowRejectedBlocked a b "Blocked relationship")] ∧
    handle (S (S n)) rnd3 0 app1 (FollowAccount b a) =
      Returned [FollowRejectedBlocked b a "Blocked relationship"] app1
        [call_handle 0 (FollowAccount b a);
         call_publish 0 (FollowRejectedBlocked b a "Blocked relationship")].
Proof.
  intros Hr Hab [blocked Ha] [blocker Hb].
  pose proof (inv_accounts app (reachable_inv app Hr)) as Hwf.
  assert (b ≠ a) as Hba by done.
  destruct (handle_block_known n rnd1 0 app b a blocker blocked Hwf Hba Hb Ha)
    as (appB & _ & HappB & Hyes & Hno).
  assert (∃ app1 log1,
            handle (S (S n)) rnd1 0 app (BlockAccount b a) =
              Returned [AccountBlocked b a] app1 log1 ∧
            accounts app1 = accounts appB) as (app1 & log1 & Hh & Hacc).
  { destruct (decide (edge app a b)) as [Hedge|Hedge].
    - eexists _, _. split; [exact (Hyes Hedge)|done].
    - eexists _, _. split; [exact (Hno Hedge)|done]. }
  assert (repo_get (accounts app1) b = Some (blocking blocker a)) as Hb'.
  { rewrite Hacc, HappB. unfold repo_get. simpl. by rewrite lookup_insert_eq. }
  assert (repo_get (accounts app1) a = Some blocked) as Ha'.
  { rewrite Hacc, HappB. unfold repo_get. simpl. rewrite lookup_insert_ne; [done|].
    intros Heq. by apply Hba, AccountId_value_inj. }
  exists app1, log1. split; [exact Hh|]. split.
  - handle_plainly
      ltac:(eapply (follow_blocked app1 a b blocked (blocking blocker a));
            [done|done|done|right; apply elem_of_blocking]).
    done.
  - handle_plainly
      ltac:(eapply (follow_blocked app1 b a (blocking blocker a) blocked);
            [done|done|done|left; apply elem_of_blocking]).
    done.
Qed.

Lemma block_forbids_following_witness :
  reachable demo_registered ∧ alice ≠ bob ∧
  is_Some (repo_get (accounts demo_registered) alice) ∧
  is_Some (repo_get (accounts demo_registered) bob) ∧
  ∃ app1 log1,
    handle 2 "c" 0 demo_registered (BlockAccount bob alice) =
      Returned [AccountBlocked bob alice] app1 log1 ∧
    handle 2 "d" 0 app1 (FollowAccount alice bob) =
      Returned [FollowRejectedBlocked alice bob "Blocked relationship"] app1
        [call_handle 0 (FollowAccount alice bob);
         call_publish 0 (FollowRejectedBlocked alice bob "Blocked relationship")] ∧
    handle 2 "e" 0 app1 (FollowAccount bob alice) =
      Returned [FollowRejectedBlocked bob alice "Blocked relationship"] app1
        [call_handle 0 (FollowAccount bob alice);
         call_publish 0 (FollowRejectedBlocked bob alice "Blocked relationship")].
Proof.
  assert (alice ≠ bob) as Hne by discriminate.
  assert (is_Some (repo_get (accounts demo_registered) alice)) as Ha
    by (vm_compute; eexists; reflexivity).
  assert (is_Some (repo_get (accounts demo_registered) bob)) as Hb
    by (vm_compute; eexists; reflexivity).
  split; [exact demo_registered_reachable|].
  split; [exact Hne|]. split; [exact Ha|]. split; [exact Hb|].
  exact (block_forbids_following demo_registered alice bob "c" "d" "e" 0
           demo_registered_reachable Hne Ha Hb).
Defined.

(** ** new.py: sanitise_filename *)

Ltac by_ascii_cases c :=
  destruct c as [[] [] [] [] [] [] [] []];
  vm_compute; first [reflexivity|discriminate|tauto].

Lemma chr_lower_idem c : chr_lower (chr_lower c) = chr_lower c.
Proof. by_ascii_cases c. Qed.

Lemma chr_lower_not_space c : is_space c = false → is_space (chr_lower c) = false.
Proof. by_ascii_cases c. Qed.

Lemma chr_replace_not_space c :
  is_space c = false → is_space (chr_replace " " "-" c) = false.
Proof. by_ascii_cases c. Qed.

Lemma sanitised_chr c : is_sanitised_chr (chr_lower (chr_replace " " "-" c)) = true.
Proof. by_ascii_cases c. Qed.

Lemma sanitised_chr_fixed c :
  is_sanitised_chr c = true →
  chr_lower (chr_replace " " "-" c) = c.
Proof. by_ascii_cases c. Qed.

Lemma string_map_map f g s :
  string_map f (string_map g s) = string_map (λ c, f (g c)) s.
Proof. induction s as [|c s IH]; simpl; [done|by rewrite IH]. Qed.

Lemma string_map_length f s : String.length (string_map f s) = String.length s.
Proof. induction s as [|c s IH]; simpl; [done|by rewrite IH]. Qed.

Lemma string_forallb_map p f s :
  string_forallb p (string_map f s) = string_forallb (λ c, p (f c)) s.
Proof. induction s as [|c s IH]; simpl; [done|by rewrite IH]. Qed.

Lemma string_forallb_true p s : (∀ c, p c = true) → string_forallb p s = true.
Proof. intros H. induction s as [|c s IH]; simpl; [done|by rewrite H, IH]. Qed.

Lemma string_map_fixed p f s :
  (∀ c, p c = true → f c = c) →
  string_forallb p s = true → string_map f s = s.
Proof.
  intros H. induction s as [|c s IH]; simpl; [done|].
  intros [Hc Hs]%andb_true_iff. by rewrite (H c Hc), IH.
Qed.

Lemma str_lstrip_length s : (String.length (str_lstrip s) ≤ String.length s)%nat.
Proof.
  induction s as [|c s IH]; simpl; [done|].
  destruct (is_space c); simpl; lia.
Qed.

Lemma str_rstrip_length s : (String.length (str_rstrip s) ≤ String.length s)%nat.
Proof.
  induction s as [|c s IH]; simpl; [done|].
  destruct (str_rstrip s); [destruct (is_space c)|]; simpl in *; lia.
Qed.

Lemma str_lstrip_idem s : str_lstrip (str_lstrip s) = str_lstrip s.
Proof.
  induction s as [|c s IH]; simpl; [done|].
  destruct (is_space c) eqn:Hc; [done|]. simpl. by rewrite Hc.
Qed.

Lemma str_rstrip_idem s : str_rstrip (str_rstrip s) = str_rstrip s.
Proof.
  induction s as [|c s IH]; simpl; [done|].
  destruct (str_rstrip s) as [|c2 r] eqn:Hr.
  - destruct (is_space c) eqn:Hc; simpl; [done|by rewrite Hc].
  - change (str_rstrip (String c (String c2 r)))
      with (match str_rstrip (String c2 r) with
            | EmptyString => if is_space c then EmptyString else String c EmptyString
            | String a b => String c (String a b)
            end).
    by rewrite IH.
Qed.

(** The head of a string [str_lstrip] leaves alone is no whitespace. *)
Lemma str_lstrip_fixed c s : str_lstrip (String c s) = String c s → is_space c = false.
Proof.
  simpl. destruct (is_space c); [|done]. intros H.
  pose proof (str_lstrip_length s) as Hl. rewrite H in Hl. simpl in Hl. lia.
Qed.

Lemma str_rstrip_head c s :
  is_space c = false → ∃ r, str_rstrip (String c s) = String c r.
Proof.
  intros Hc. simpl. destruct (str_rstrip s); [|by eexists].
  rewrite Hc. by eexists.
Qed.

Lemma str_lstrip_rstrip s :
  str_lstrip s = s → str_lstrip (str_rstrip s) = str_rstrip s.
Proof.
  destruct s as [|c s]; [done|]. intros Hc%str_lstrip_fixed.
  destruct (str_rstrip_head c s Hc) as [r ->]. simpl. by rewrite Hc.
Qed.

Lemma str_lstrip_map f s :
  (∀ c, is_space c = false → is_space (f c) = false) →
  str_lstrip s = s → str_lstrip (string_map f s) = string_map f s.
Proof.
  intros Hf. destruct s as [|c s]; [done|]. intros Hc%str_lstrip_fixed.
  simpl. by rewrite (Hf c Hc).
Qed.

Lemma str_rstrip_map f s :
  (∀ c, is_space c = false → is_space (f c) = false) →
  str_rstrip s = s → str_rstrip (string_map f s) = string_map f s.
Proof.
  intros Hf. induction s as [|c s IH]; [done|]. simpl.
  destruct (str_rstrip s) as [|c2 r] eqn:Hr.
  - destruct (is_space c) eqn:Hc; [done|]. intros [= <-]. simpl.
    by rewrite (Hf c Hc).
  - intros [= Hs]. subst s. by rewrite (IH eq_refl).
Qed.

Lemma str_rstrip_empty s : str_rstrip s = "" ↔ string_forallb is_space s = true.
Proof.
  induction s as [|c s IH]; simpl; [done|].
  destruct (str_rstrip s) as [|c2 r].
  - destruct (is_space c); simpl; [tauto|]. split; [done|discriminate].
  - split; [done|]. intros [_ H]%andb_true_iff. by apply IH in H.
Qed.

Lemma str_lstrip_all_space s :
  string_forallb is_space (str_lstrip s) = string_forallb is_space s.
Proof.
  induction s as [|c s IH]; simpl; [done|].
  destruct (is_space c) eqn:Hc; simpl; [done|by rewrite Hc].
Qed.

Lemma string_map_empty f s : string_map f s = "" ↔ s = "".
Proof. by destruct s. Qed.

(** What [strip] returns, [lstrip] and [rstrip] leave alone. *)
Lemma str_strip_stripped s :
  str_lstrip (str_strip s) = str_strip s ∧ str_rstrip (str_strip s) = str_strip s.
Proof.
  unfold str_strip. split.
  - apply str_lstrip_rstrip, str_lstrip_idem.
  - apply str_rstrip_idem.
Qed.

Lemma sanitise_filename_stripped s :
  str_lstrip (sanitise_filename s) = sanitise_filename s ∧
  str_rstrip (sanitise_filename s) = sanitise_filename s.
Proof.
  unfold sanitise_filename, str_lower, str_replace_chr.
  destruct (str_strip_stripped s) as [Hl Hr]. split.
  - by do 2 (apply str_lstrip_map;
             [first [apply chr_lower_not_space|apply chr_replace_not_space]|]).
  - by do 2 (apply str_rstrip_map;
             [first [apply chr_lower_not_space|apply chr_replace_not_space]|]).
Qed.

Lemma sanitise_filename_chars s :
  string_forallb is_sanitised_chr (sanitise_filename s) = true.
Proof.
  unfold sanitise_filename, str_lower, str_replace_chr.
  rewrite string_map_map, string_forallb_map.
  apply string_forallb_true, sanitised_chr.
Qed.

(** The code of a character [sanitise_filename] lets through: not that of
    the space, nor of [A] to [Z], nor of 0xC0 to 0xDE but for 0xD7. *)
Lemma sanitised_chr_code c :
  (let n := nat_of_ascii (chr_lower (chr_replace " " "-" c)) in
   (n =? 32) || (65 <=? n) && (n <=? 90) ||
   (192 <=? n) && (n <=? 222) && negb (n =? 215))%nat = false.
Proof. by_ascii_cases c. Qed.

Lemma elem_of_string_map f s c :
  c ∈ String.list_ascii_of_string (string_map f s) →
  ∃ c0, c0 ∈ String.list_ascii_of_string s ∧ c = f c0.
Proof.
  induction s as [|c1 s IH]; simpl.
  - by intros ?%elem_of_nil.
  - intros [->|Hin]%elem_of_cons.
    + exists c1. split; [by left|done].
    + destruct (IH Hin) as (c0 & Hc0 & ->). exists c0.
      split; [by right|done].
Qed.

(** The name [sanitise_filename] returns has no space and no upper-case
    letter: no character of code 32, of a code from 65 to 90 ([A] to [Z])
    or of a code from 192 to 222 other than 215, which are the characters
    below 256 that have a lower-case form. It neither starts nor ends in
    whitespace and is no longer than the argument; it is empty exactly when
    the argument is whitespace throughout. *)
Theorem sanitise_filename_result (filename : string) :
  (∀ c, c ∈ String.list_ascii_of_string (sanitise_filename filename) →
        nat_of_ascii c ≠ 32%nat ∧
        ¬ (65 ≤ nat_of_ascii c ≤ 90)%nat ∧
        ¬ ((192 ≤ nat_of_ascii c ≤ 222)%nat ∧ nat_of_ascii c ≠ 215%nat)) ∧
  str_strip (sanitise_filename filename) = sanitise_filename filename ∧
  (String.length (sanitise_filename filename) ≤ String.length filename)%nat ∧
  (sanitise_filename filename = "" ↔ string_forallb is_space filename = true).
Proof.
  destruct (sanitise_filename_stripped filename) as [Hl Hr].
  split.
  { intros c Hc. unfold sanitise_filename, str_lower, str_replace_chr in Hc.
    rewrite string_map_map in Hc.
    apply elem_of_string_map in Hc as (c0 & _ & ->).
    pose proof (sanitised_chr_code c0) as Hn. cbv zeta in Hn.
    set (n := nat_of_ascii (chr_lower (chr_replace " " "-" c0))) in *.
    apply orb_false_iff in Hn as [[H32 Haz]%orb_false_iff Hhi].
    apply Nat.eqb_neq in H32. split; [done|]. split.
    - intros [H1 H2]. apply Nat.leb_le in H1, H2. by rewrite H1, H2 in Haz.
    - intros [[H1 H2] H3]. apply Nat.leb_le in H1, H2. apply Nat.eqb_neq in H3.
      by rewrite H1, H2, H3 in Hhi. }
  split; [unfold str_strip; by rewrite Hl|].
  unfold sanitise_filename, str_lower, str_replace_chr, str_strip. split.
  - rewrite !string_map_length.
    pose proof (str_rstrip_length (str_lstrip filename)).
    pose proof (str_lstrip_length filename). lia.
  - by rewrite !string_map_empty, str_rstrip_empty, str_lstrip_all_space.
Qed.

(** [sanitise_filename] is idempotent: a name it returned comes back as it
    is. *)
Theorem sanitise_filename_idempotent (filename : string) :
  sanitise_filename (sanitise_filename filename) = sanitise_filename filename.
Proof.
  destruct (sanitise_filename_stripped filename) as [Hl Hr].
  pose proof (sanitise_filename_chars filename) as Hc.
  set (r := sanitise_filename filename) in *.
  unfold sanitise_filename at 1. unfold str_strip. rewrite Hl, Hr.
  unfold str_lower, str_replace_chr. rewrite string_map_map.
  apply (string_map_fixed is_sanitised_chr); [apply sanitised_chr_fixed|done].
Qed.
